(** * eventstreams: the [/v2/stream/:streams] route (routes/stream.js)

    A shallow embedding of the request handler registered by
    [router.get('/stream/:streams', ...)] together with the pieces of the
    JavaScript runtime it relies on, followed by the properties of the
    admission pipeline: validation order, counter bookkeeping, topic
    expansion, timestamp resolution and output framing. *)

From Stdlib Require Import ZArith String Ascii List Bool Lia.
From stdpp Require Import gmap strings list.

Open Scope string_scope.
Open Scope Z_scope.

(** ** JavaScript values and runtime primitives *)

Module JS.

(** The values that flow through the handler's [atTimestamp] variable and
    the [topics] array: [undefined], strings, and the numbers [Date.parse]
    produces (an integral time value or [NaN]). *)
Inductive value :=
  | Undefined
  | Str (s : string)
  | Num (n : Z)
  | NaN.

(** ToBoolean. *)
Definition truthy (v : value) : bool :=
  match v with
  | Undefined => false
  | Str s => negb (String.eqb s "")
  | Num n => negb (Z.eqb n 0)
  | NaN => false
  end.

(** [v !== undefined]. *)
Definition defined (v : value) : bool :=
  match v with Undefined => false | _ => true end.

(** *** Strings as sequences of UTF-8 bytes *)

Definition code (c : ascii) : Z := Z.of_N (N_of_ascii c).

Definition is_digit (c : ascii) : bool := (48 <=? code c) && (code c <=? 57).

Definition digit_val (c : ascii) : option Z :=
  if is_digit c then Some (code c - 48) else None.

Definition is_hex_digit (c : ascii) : bool :=
  is_digit c || ((65 <=? code c) && (code c <=? 70))
             || ((97 <=? code c) && (code c <=? 102)).

Definition is_octal_digit (c : ascii) : bool := (48 <=? code c) && (code c <=? 55).

Definition is_binary_digit (c : ascii) : bool := (48 <=? code c) && (code c <=? 49).

(** StrWhiteSpaceChar of ECMA-262 (WhiteSpace and LineTerminator).  The
    one-byte members are TAB, LF, VT, FF, CR and SP. *)
Definition is_ws1 (c : ascii) : bool :=
  ((9 <=? code c) && (code c <=? 13)) || (code c =? 32).

(** U+00A0 is the only two-byte member: C2 A0. *)
Definition is_ws2 (a b : ascii) : bool := (code a =? 194) && (code b =? 160).

(** The three-byte members: U+1680, U+2000..U+200A, U+2028, U+2029, U+202F,
    U+205F, U+3000 and U+FEFF. *)
Definition is_ws3 (a b c : ascii) : bool :=
  ((code a =? 225) && (code b =? 154) && (code c =? 128))
  || ((code a =? 226) && (code b =? 128)
      && (((128 <=? code c) && (code c <=? 138))
          || (code c =? 168) || (code c =? 169) || (code c =? 175)))
  || ((code a =? 226) && (code b =? 129) && (code c =? 159))
  || ((code a =? 227) && (code b =? 128) && (code c =? 128))
  || ((code a =? 239) && (code b =? 187) && (code c =? 191)).

(** Drop leading white space. *)
Fixpoint trim_start (l : list ascii) : list ascii :=
  match l with
  | a :: r =>
      if is_ws1 a then trim_start r
      else match r with
           | b :: r' =>
               if is_ws2 a b then trim_start r'
               else match r' with
                    | c :: r'' => if is_ws3 a b c then trim_start r'' else l
                    | [] => l
                    end
           | [] => l
           end
  | [] => []
  end.

(** Drop trailing white space: the same scan over the reversed bytes, with
    each multi-byte sequence read back to front. *)
Fixpoint trim_start_rev (l : list ascii) : list ascii :=
  match l with
  | a :: r =>
      if is_ws1 a then trim_start_rev r
      else match r with
           | b :: r' =>
               if is_ws2 b a then trim_start_rev r'
               else match r' with
                    | c :: r'' => if is_ws3 c b a then trim_start_rev r'' else l
                    | [] => l
                    end
           | [] => l
           end
  | [] => []
  end.

Definition trim (l : list ascii) : list ascii :=
  rev (trim_start_rev (rev (trim_start l))).

(** *** StringToNumber, as far as [isNaN] needs it

    [isNaN(s)] on a string is [true] exactly when the trimmed string is not
    a StringNumericLiteral: the numeric value of a literal may be infinite
    but is never [NaN]. *)

Fixpoint skip_digits (l : list ascii) : nat * list ascii :=
  match l with
  | c :: r => if is_digit c then let '(n, r') := skip_digits r in (S n, r')
              else (O, l)
  | [] => (O, [])
  end.

Definition skip_sign (l : list ascii) : list ascii :=
  match l with
  | c :: r => if (code c =? 43) || (code c =? 45) then r else l
  | [] => []
  end.

(** ExponentPart opt, up to the end of the input. *)
Definition exponent_opt (l : list ascii) : bool :=
  match l with
  | [] => true
  | c :: r =>
      if (code c =? 101) || (code c =? 69) then
        match skip_digits (skip_sign r) with
        | (S _, []) => true
        | _ => false
        end
      else false
  end.

(** StrUnsignedDecimalLiteral other than [Infinity]. *)
Definition unsigned_decimal (l : list ascii) : bool :=
  let '(n1, r1) := skip_digits l in
  match r1 with
  | c :: r2 =>
      if code c =? 46 then
        let '(n2, r3) := skip_digits r2 in
        match n1, n2 with
        | O, O => false
        | _, _ => exponent_opt r3
        end
      else match n1 with O => false | S _ => exponent_opt r1 end
  | [] => match n1 with O => false | S _ => true end
  end.

(** NonDecimalIntegerLiteral: [0x], [0o] or [0b] (either case) and one or
    more digits of that base. *)
Definition non_decimal (l : list ascii) : bool :=
  match l with
  | z :: p :: d :: r =>
      (code z =? 48)
      && ((((code p =? 120) || (code p =? 88)) && forallb is_hex_digit (d :: r))
          || (((code p =? 111) || (code p =? 79)) && forallb is_octal_digit (d :: r))
          || (((code p =? 98) || (code p =? 66)) && forallb is_binary_digit (d :: r)))
  | _ => false
  end.

Definition str_numeric_literal (l : list ascii) : bool :=
  non_decimal l
  || (let u := skip_sign l in
      String.eqb (string_of_list_ascii u) "Infinity" || unsigned_decimal u).

(** [isNaN(s)] for a string [s]. *)
Definition isNaN_string (s : string) : bool :=
  match trim (list_ascii_of_string s) with
  | [] => false
  | t => negb (str_numeric_literal t)
  end.

(** The global [isNaN]. *)
Definition isNaN (v : value) : bool :=
  match v with
  | Undefined => true
  | Str s => isNaN_string s
  | Num _ => false
  | NaN => true
  end.

(** *** String.prototype.split(','), Array.prototype.join(',') *)

Fixpoint split_comma (s : string) : list string :=
  match s with
  | EmptyString => [""]
  | String c r =>
      if code c =? 44 then "" :: split_comma r
      else match split_comma r with
           | h :: t => String c h :: t
           | [] => [String c ""]
           end
  end.

Definition join_comma (l : list string) : string := String.concat "," l.

(** String.prototype.startsWith. *)
Definition startsWith (s p : string) : bool := String.prefix p s.

(** *** Date.parse

    ECMA-262 fixes the result for strings in the date-time interchange
    format; for every other string the result is implementation-defined.
    The forms below are the ones read as UTC whatever the host's time zone:
    [YYYY-MM-DD], alone or followed by [THH:mmZ], [THH:mm:ssZ] or
    [THH:mm:ss.sssZ], with every field in range. *)

Fixpoint read_digits (n : nat) (acc : Z) (l : list ascii) : option (Z * list ascii) :=
  match n with
  | O => Some (acc, l)
  | S n' =>
      match l with
      | c :: r => d ← digit_val c; read_digits n' (acc * 10 + d) r
      | [] => None
      end
  end.

Definition expect (k : Z) (l : list ascii) : option (list ascii) :=
  match l with
  | c :: r => if code c =? k then Some r else None
  | [] => None
  end.

Definition InLeapYear (y : Z) : bool :=
  (y mod 4 =? 0) && (negb (y mod 100 =? 0) || (y mod 400 =? 0)).

Definition DayFromYear (y : Z) : Z :=
  365 * (y - 1970) + (y - 1969) / 4 - (y - 1901) / 100 + (y - 1601) / 400.

(** Days before the first of month [m] (1..12) in a common year. *)
Definition days_before_month (m : Z) : Z :=
  nth (Z.to_nat (m - 1)) [0; 31; 59; 90; 120; 151; 181; 212; 243; 273; 304; 334] 0.

Definition DaysInMonth (y m : Z) : Z :=
  if m =? 2 then (if InLeapYear y then 29 else 28)
  else if (m =? 4) || (m =? 6) || (m =? 9) || (m =? 11) then 30 else 31.

Definition MakeDay (y m d : Z) : Z :=
  DayFromYear y + days_before_month m
  + (if InLeapYear y && (2 <? m) then 1 else 0) + (d - 1).

Definition msPerDay : Z := 86400000.

Definition MakeTime (h mi s ms : Z) : Z :=
  h * 3600000 + mi * 60000 + s * 1000 + ms.

Definition MakeDate (day time : Z) : Z := day * msPerDay + time.

Definition read_date (l : list ascii) : option (Z * list ascii) :=
  '(y, l) ← read_digits 4 0 l;
  l ← expect 45 l;
  '(m, l) ← read_digits 2 0 l;
  l ← expect 45 l;
  '(d, l) ← read_digits 2 0 l;
  if (1 <=? m) && (m <=? 12) && (1 <=? d) && (d <=? DaysInMonth y m)
  then Some (MakeDay y m d, l) else None.

(** Seconds and milliseconds, then the [Z] that ends the string. *)
Definition read_seconds (l : list ascii) : option Z :=
  match l with
  | [z] => if code z =? 90 then Some 0 else None
  | _ =>
      l ← expect 58 l;
      '(s, l) ← read_digits 2 0 l;
      if s <=? 59 then
        match l with
        | [z] => if code z =? 90 then Some (s * 1000) else None
        | _ =>
            l ← expect 46 l;
            '(ms, l) ← read_digits 3 0 l;
            match l with
            | [z] => if code z =? 90 then Some (s * 1000 + ms) else None
            | _ => None
            end
        end
      else None
  end.

Definition read_time (l : list ascii) : option Z :=
  l ← expect 84 l;
  '(h, l) ← read_digits 2 0 l;
  l ← expect 58 l;
  '(mi, l) ← read_digits 2 0 l;
  if (h <=? 23) && (mi <=? 59) then
    sms ← read_seconds l; Some (MakeTime h mi 0 sms)
  else None.

Definition parse_utc_format (s : string) : option Z :=
  '(day, l) ← read_date (list_ascii_of_string s);
  match l with
  | [] => Some (MakeDate day 0)
  | _ => t ← read_time l; Some (MakeDate day t)
  end.

(** [Date.parse], given the host's treatment of the strings the standard
    leaves to it ([None] stands for [NaN]). *)
Definition Date_parse (host : string → option Z) (s : string) : value :=
  match parse_utc_format s with
  | Some t => Num t
  | None => match host s with Some t => Num t | None => NaN end
  end.

(** *** Property lookup on a plain object

    [own] holds the object's own properties; every plain object also
    inherits the properties of [Object.prototype]. *)

Definition Object_prototype_keys : list string :=
  [ "constructor"; "__defineGetter__"; "__defineSetter__"; "hasOwnProperty";
    "__lookupGetter__"; "__lookupSetter__"; "isPrototypeOf";
    "propertyIsEnumerable"; "toString"; "valueOf"; "__proto__";
    "toLocaleString" ].

Definition inherited (k : string) : bool :=
  existsb (String.eqb k) Object_prototype_keys.

(** [k in o]. *)
Definition has_property {V} (k : string) (own : gmap string V) : bool :=
  match own !! k with Some _ => true | None => inherited k end.

(** [_.has(o, k)]: own properties only. *)
Definition has_own {V} (k : string) (own : gmap string V) : bool :=
  match own !! k with Some _ => true | None => false end.

End JS.

#[export] Instance value_eq_dec : EqDecision JS.value.
Proof. solve_decision. Defined.

(** ** Configuration, requests and errors *)

(** [new HTTPError({status, type, title, detail})]. *)
Record HTTPError := {
  status : Z;
  type : string;
  title : string;
  detail : string
}.

(** The four errors the route throws. *)
Definition missing_client_ip : HTTPError :=
  {| status := 400;
     type := "bad_request";
     title := "Missing Required X-Client-IP Header";
     detail := "X-Client-IP is a required request header" |}.

Definition too_many_requests : HTTPError :=
  {| status := 429;
     type := "too_many_requests";
     title := "Too Many Concurrent Connections From Your Client IP";
     detail := "Your HTTP client is likely opening too many concurrent connections." |}.

Definition stream_not_found (invalidStreams : list string) : HTTPError :=
  {| status := 400;
     type := "not_found";
     title := "Stream Not Found";
     detail := "Invalid streams: " +:+ JS.join_comma invalidStreams |}.

Definition invalid_timestamp (since : string) : HTTPError :=
  {| status := 400;
     type := "invalid_timestamp";
     title := "Invalid timestamp";
     detail := "since timestamp is not a UTC milliseconds unix epoch and was not parseable: '"
               +:+ since +:+ "'" |}.

(** What the handler can throw: an [HTTPError], or the [TypeError] of
    reading a property of [undefined]. *)
Inductive exn :=
  | Http (e : HTTPError)
  | TypeError.

(** One entry of [app.conf.streams]. *)
Record stream_conf := { topics : list string }.

(** The fields of [app.conf] the route reads.  [client_ip_connection_limit]
    is [None] when the setting is not given.  [conf_streams] holds the own
    properties of [app.conf.streams], a plain object read from the
    service's configuration. *)
Record app_conf := {
  worker_id : string;
  client_ip_connection_limit : option Z;
  conf_streams : gmap string stream_conf
}.

(** The host the worker runs on: [os.hostname()] and the engine's
    [Date.parse] for strings outside the standard format. *)
Record host := {
  os_hostname : string;
  date_parse_host : string → option Z
}.

(** The request: [req.params.streams], [req.query.since] (given at most
    once, so a string or [undefined]) and [req.headers]. *)
Record request := {
  params_streams : string;
  query_since : option string;
  headers : gmap string string
}.

Definition of_option (o : option string) : JS.value :=
  match o with Some s => JS.Str s | None => JS.Undefined end.

(** A value inside a template literal. *)
Definition template (o : option string) : string :=
  match o with Some s => s | None => "undefined" end.

(** ** The interval counter *)

(** Modelled from the spec: the [IntervalCounter] class of
    lib/eventstreams-util, whose code the route only calls.  The route
    needs its three operations and nothing else, so they are an interface:
    [get] reads a count ([None] for [undefined]) without changing anything,
    [increment] and [decrement] change the count of one key. *)
Class IntervalCounter (C : Type) := {
  ic_get : C → string → option Z;
  ic_increment : C → string → C;
  ic_decrement : C → string → C
}.

(** Modelled from the spec: the counter as a plain map from key to count;
    [get] returns the current count, or 0 for a key never touched. *)
Definition map_get (m : gmap string Z) (k : string) : option Z :=
  Some (default 0 (m !! k)).

(** Modelled from the spec: [increment] adds 1 to the count of the key,
    starting from 0 when the key is new. *)
Definition map_increment (m : gmap string Z) (k : string) : gmap string Z :=
  <[k := default 0 (m !! k) + 1]> m.

(** Modelled from the spec: [decrement] subtracts 1 from the count of the
    key and stops at 0. *)
Definition map_decrement (m : gmap string Z) (k : string) : gmap string Z :=
  <[k := Z.max 0 (default 0 (m !! k) - 1)]> m.

#[export] Instance map_counter : IntervalCounter (gmap string Z) := {
  ic_get := map_get;
  ic_increment := map_increment;
  ic_decrement := map_decrement
}.

(** The calls that change the counter, in the order they are made. *)
Inductive counter_call :=
  | Increment (key : string)
  | Decrement (key : string).

#[export] Instance counter_call_eq_dec : EqDecision counter_call.
Proof. solve_decision. Defined.

(** The arguments of [kafkaSse(req, res, topics, options, atTimestamp)] that
    the route computes.  [logger], [kafkaConfig] and [deserializer] are
    passed on as they are and [useTimestampForId] is always [true]. *)
Record kafkaSse_args := {
  arg_topics : list JS.value;
  allowedTopics : list JS.value;
  useTimestampForId : bool;
  responseHeaders : gmap string string;
  disableSSEFormatting : bool;
  atTimestamp : JS.value
}.

Section Route.

Context {C : Type} `{IntervalCounter C}.

(** The state the handler runs in: the worker's counter and the log of the
    mutating calls made on it so far. *)
Record world := {
  counter : C;
  calls : list counter_call
}.

(** Computations that read and change the world and may throw. *)
Definition M (A : Type) : Type := world → (exn + A) * world.

Definition ret {A} (a : A) : M A := fun w => (inr a, w).

Definition throw {A} (e : exn) : M A := fun w => (inl e, w).

Definition bind {A B} (c : M A) (k : A → M B) : M B :=
  fun w => match c w with
           | (inr a, w') => k a w'
           | (inl e, w') => (inl e, w')
           end.

#[export] Instance M_ret : MRet M := @ret.
#[export] Instance M_bind : MBind M := fun A B k c => bind c k.

Definition intervalCounter_get (key : string) : M (option Z) :=
  fun w => (inr (ic_get (counter w) key), w).

Definition intervalCounter_increment (key : string) : M unit :=
  fun w => (inr tt, {| counter := ic_increment (counter w) key;
                       calls := (calls w ++ [Increment key])%list |}).

Definition intervalCounter_decrement (key : string) : M unit :=
  fun w => (inr tt, {| counter := ic_decrement (counter w) key;
                       calls := (calls w ++ [Decrement key])%list |}).

(** [Array.prototype.forEach]. *)
Fixpoint forEach {A} (l : list A) (f : A → M unit) : M unit :=
  match l with
  | [] => ret tt
  | x :: r => f x ;; forEach r f
  end.

Definition lift {A} (r : exn + A) : M A :=
  match r with inl e => throw e | inr a => ret a end.

(** ** The route *)

Variable h : host.
Variable app : app_conf.

Definition workerMetricPrefix : string :=
  os_hostname h +:+ "." +:+ worker_id app.

Definition streamConnectionMetricPrefix : string :=
  workerMetricPrefix +:+ ".connections.stream".

Definition clientConnectionMetricPrefix : string :=
  workerMetricPrefix +:+ ".connections.client_ip".

Definition stream_key (stream : string) : string :=
  streamConnectionMetricPrefix +:+ "." +:+ stream.

(** [app.conf.streams[stream].topics]: the topic array of a configured
    stream; [undefined] when the name only resolves to a property of
    [Object.prototype]; a [TypeError] when it does not resolve at all. *)
Definition stream_topics (stream : string) : exn + list JS.value :=
  match conf_streams app !! stream with
  | Some sc => inr (map JS.Str (topics sc))
  | None => if JS.inherited stream then inr [JS.Undefined] else inl TypeError
  end.

(** [_.flatMap(streams, stream => app.conf.streams[stream].topics)]: arrays
    are spliced in, any other result is kept as one element. *)
Fixpoint flatMap_topics (l : list string) : exn + list JS.value :=
  match l with
  | [] => inr []
  | s :: r =>
      match stream_topics s with
      | inl e => inl e
      | inr ts => match flatMap_topics r with
                  | inl e => inl e
                  | inr rest => inr (ts ++ rest)%list
                  end
      end
  end.

(** The listener given to [res.on('close', ...)], with the two variables it
    closes over.  Its debug log line changes nothing that is modelled. *)
Definition close_listener (streams : list string)
    (clientConnectionMetric : option string) : M unit :=
  forEach streams (fun stream => intervalCounter_decrement (stream_key stream)) ;;
  if JS.truthy (of_option clientConnectionMetric)
  then intervalCounter_decrement (template clientConnectionMetric)
  else ret tt.

(** What an admitted request leaves behind: the listener registered on the
    response and the call into the streaming engine. *)
Record admitted := {
  on_close : M unit;
  kafkaSse : kafkaSse_args
}.

(** Lines 44 to 66: the client connection limit. *)
Definition check_client (req : request) : M (option string) :=
  match client_ip_connection_limit app with
  | Some limit =>
      if JS.truthy (JS.Num limit) then
        if negb (JS.truthy (of_option (headers req !! "x-client-ip"))) then
          throw (Http missing_client_ip)
        else
          let clientConnectionMetric :=
            clientConnectionMetricPrefix +:+ "." +:+ template (headers req !! "x-client-ip") in
          got ← intervalCounter_get clientConnectionMetric;
          let clientConnectionCount :=
            match got with
            | Some n => if JS.truthy (JS.Num n) then n else 0
            | None => 0
            end in
          if limit <=? clientConnectionCount then
            throw (Http too_many_requests)
          else ret (Some clientConnectionMetric)
      else ret None
  | None => ret None
  end.

(** Lines 86 to 101: the [since] parameter. *)
Definition resolve_since (since : option string) : M JS.value :=
  let atTimestamp := of_option since in
  let atTimestamp :=
    if JS.truthy atTimestamp && JS.isNaN atTimestamp
    then JS.Date_parse (date_parse_host h) (template since)
    else atTimestamp in
  if JS.defined atTimestamp && JS.isNaN atTimestamp then
    throw (Http (invalid_timestamp (template since)))
  else ret atTimestamp.

(** The handler of [router.get('/stream/:streams', ...)]. *)
Definition stream_route (req : request) : M admitted :=
  clientConnectionMetric ← check_client req;
  let streams := JS.split_comma (params_streams req) in
  let invalidStreams :=
    filter (fun stream => negb (JS.has_property stream (conf_streams app))) streams in
  if (0 <? Z.of_nat (length invalidStreams)) then
    throw (Http (stream_not_found invalidStreams))
  else
    topics ← lift (flatMap_topics streams);
    atTimestamp ← resolve_since (query_since req);
    forEach streams (fun stream => intervalCounter_increment (stream_key stream)) ;;
    (if JS.truthy (of_option clientConnectionMetric)
     then intervalCounter_increment (template clientConnectionMetric)
     else ret tt) ;;
    let responseHeaders : gmap string string :=
      if JS.has_own "content-type" (headers req)
      then {[ "content-type" := template (headers req !! "content-type") ]}
      else ∅ in
    let disableSSEFormatting :=
      JS.has_own "content-type" (headers req)
      && JS.startsWith (template (responseHeaders !! "content-type")) "application/json" in
    ret {| on_close := close_listener streams clientConnectionMetric;
           kafkaSse := {| arg_topics := topics;
                          allowedTopics := topics;
                          useTimestampForId := true;
                          responseHeaders := responseHeaders;
                          disableSSEFormatting := disableSSEFormatting;
                          atTimestamp := atTimestamp |} |}.

End Route.

Arguments world C : clear implicits.
Arguments M C A : clear implicits.
Arguments admitted C : clear implicits.

(** A connection from admission to its end: the route runs and, if it
    admits the request, the response's close event fires once. *)
Definition connection `{IntervalCounter C} (h : host) (app : app_conf)
    (req : request) : M C unit :=
  a ← stream_route h app req; on_close a.

(** The engine call of an outcome, or what was thrown. *)
Definition engine_call {C} (r : (exn + admitted C) * world C) : exn + kafkaSse_args :=
  match fst r with inl e => inl e | inr a => inr (kafkaSse a) end.

(** How often [x] occurs in [l]. *)
Definition occurrences `{EqDecision A} (x : A) (l : list A) : nat :=
  count_occ (decide_rel (=)) l x.

(** ** Vocabulary of the properties *)

(** The spec's "parseable as a base-10 integer": an optional sign and one or
    more decimal digits, nothing else. *)
Definition base10_integer (s : string) : bool :=
  match JS.skip_digits (JS.skip_sign (list_ascii_of_string s)) with
  | (S _, []) => true
  | _ => false
  end.

Section Vocabulary.

Context {C : Type} `{IntervalCounter C}.
Variable h : host.
Variable app : app_conf.

(** The names a request asks for. *)
Definition requested (req : request) : list string :=
  JS.split_comma (params_streams req).

(** The names the route reports as invalid streams. *)
Definition invalid_of (req : request) : list string :=
  filter (fun stream => negb (JS.has_property stream (conf_streams app))) (requested req).

(** The requested names that the catalog does not have. *)
Definition missing_of (req : request) : list string :=
  filter (fun s => conf_streams app !! s = None) (requested req).

(** The topics the catalog gives a name. *)
Definition configured_topics (stream : string) : list string :=
  match conf_streams app !! stream with
  | Some sc => topics sc
  | None => []
  end.

(** What a requested name contributes to the topic list. *)
Definition contribution (stream : string) : list JS.value :=
  match conf_streams app !! stream with
  | Some sc => map JS.Str (topics sc)
  | None => [JS.Undefined]
  end.

(** The client's counter key. *)
Definition client_key (ip : string) : string :=
  clientConnectionMetricPrefix h app +:+ "." +:+ ip.

(** [intervalCounter.get(key) || 0]. *)
Definition reading (w : world C) (key : string) : Z :=
  default 0 (ic_get (counter w) key).

(** The limit is configured when the setting is a non-zero number. *)
Definition limit_is (limit : Z) : Prop :=
  client_ip_connection_limit app = Some limit ∧ limit ≠ 0.

(** The keys of a connection: one per requested name, then the client's. *)
Definition session_keys (streams : list string) (ccm : option string) : list string :=
  (map (stream_key h app) streams
   ++ (if JS.truthy (of_option ccm) then [template ccm] else []))%list.

(** The world after incrementing each key of a list in turn. *)
Definition increment_all (keys : list string) (w : world C) : world C :=
  {| counter := fold_left ic_increment keys (counter w);
     calls := (calls w ++ map Increment keys)%list |}.

(** The world after decrementing each key of a list in turn. *)
Definition decrement_all (keys : list string) (w : world C) : world C :=
  {| counter := fold_left ic_decrement keys (counter w);
     calls := (calls w ++ map Decrement keys)%list |}.

End Vocabulary.

(** ** Conditions of admission and of counting *)

Section Conditions.

Context {C : Type} `{IntervalCounter C}.
Variable h : host.
Variable app : app_conf.

(** What a counter reads for a key: [get(key) || 0]. *)
Definition count_of (c : C) (key : string) : Z := default 0 (ic_get c key).

(** The client check lets the request through: whenever a limit is
    configured, the request names its client and that client's counter
    reads less than the limit. *)
Definition client_admissible (req : request) (w : world C) : Prop :=
  ∀ limit, limit_is app limit →
    ∃ ip, headers req !! "x-client-ip" = Some ip ∧ ip ≠ ""
          ∧ reading w (client_key h app ip) < limit.

(** The since parameter resolves: it is absent, or [isNaN] takes it for a
    number, or [Date.parse] gives a time value for it. *)
Definition since_resolvable (since : option string) : Prop :=
  ∀ raw, since = Some raw → JS.isNaN_string raw = true →
    ∃ t, JS.Date_parse (date_parse_host h) raw = JS.Num t.

(** Modelled from the spec: what section 4.3 asks of the counter, as a
    condition on an implementation of the interface.  [increment] adds one
    to the reading of its key, [decrement] takes one off a reading that is
    at least one, and neither changes the reading of another key. *)
Definition gauge_laws : Prop :=
  (∀ c k, count_of (ic_increment c k) k = count_of c k + 1)
  ∧ (∀ c k k', k ≠ k' → count_of (ic_increment c k) k' = count_of c k')
  ∧ (∀ c k, 1 ≤ count_of c k → count_of (ic_decrement c k) k = count_of c k - 1)
  ∧ (∀ c k k', k ≠ k' → count_of (ic_decrement c k) k' = count_of c k').

End Conditions.

(** ** Fixtures *)

Module Fixtures.

Definition strict_host : host :=
  {| os_hostname := "w1"; date_parse_host := fun _ => None |}.

Definition catalog : gmap string stream_conf :=
  {[ "articles" := {| topics := ["topic.articles"] |};
     "edits" := {| topics := ["topic.edits"; "topic.articles"] |} ]}.

Definition open_conf : app_conf :=
  {| worker_id := "0"; client_ip_connection_limit := None; conf_streams := catalog |}.

Definition limited_conf : app_conf :=
  {| worker_id := "0"; client_ip_connection_limit := Some 2; conf_streams := catalog |}.

Definition get (streams : string) (since : option string)
    (hdrs : list (string * string)) : request :=
  {| params_streams := streams; query_since := since; headers := list_to_map hdrs |}.

Definition idle : world (gmap string Z) := {| counter := ∅; calls := [] |}.

Definition articles_key : string := "w1.0.connections.stream.articles".

Definition client_ip_key : string := "w1.0.connections.client_ip.10.0.0.1".

Definition client : list (string * string) := [("x-client-ip", "10.0.0.1")].

Definition busy : world (gmap string Z) :=
  {| counter := {[ client_ip_key := 2 ]}; calls := [] |}.

(** A world in which other keys are busy but the client's is not. *)
Definition elsewhere_busy : world (gmap string Z) :=
  {| counter := {[ articles_key := 7; "w1.0.connections.client_ip.10.0.0.2" := 2 ]};
     calls := [] |}.

End Fixtures.

(** ** The runtime primitives and the route at concrete inputs *)

Example isNaN_examples :
  map JS.isNaN_string
    ["1600000000000"; ""; " "; "not-a-real-date"; "2020-09-13T12:26:40Z";
     "-12.5e+3"; "0x1F"; "Infinity"; "."; "1e"; "12px"; "+.5"; "5."; "- 1"]
  = [false; false; false; true; true; false; false; false; true; true; true;
     false; false; true].
Proof. vm_compute. reflexivity. Qed.

Example parse_examples :
  map JS.parse_utc_format
    ["2020-09-13T12:26:40Z"; "1970-01-01"; "2020-02-30"; "2020-09-13T12:26:40.123Z";
     "not-a-real-date"; "2000-03-01T00:00Z"; "1969-12-31T23:59:59Z"]
  = [Some 1600000000000; Some 0; None; Some 1600000000123; None;
     Some 951868800000; Some (-1000)].
Proof. vm_compute. reflexivity. Qed.

Example split_examples :
  map JS.split_comma ["a,b"; ""; ","; "a,,b"; "articles"]
  = [["a"; "b"]; [""]; [""; ""]; ["a"; ""; "b"]; ["articles"]].
Proof. vm_compute. reflexivity. Qed.

Example route_articles :
  engine_call (stream_route Fixtures.strict_host Fixtures.open_conf
                 (Fixtures.get "articles" None []) Fixtures.idle)
  = inr {| arg_topics := [JS.Str "topic.articles"];
           allowedTopics := [JS.Str "topic.articles"];
           useTimestampForId := true;
           responseHeaders := ∅;
           disableSSEFormatting := false;
           atTimestamp := JS.Undefined |}.
Proof. vm_compute. reflexivity. Qed.

Example route_articles_calls :
  calls (snd (connection Fixtures.strict_host Fixtures.limited_conf
                (Fixtures.get "articles,edits" None [("x-client-ip", "10.0.0.1")])
                Fixtures.idle))
  = [Increment "w1.0.connections.stream.articles";
     Increment "w1.0.connections.stream.edits";
     Increment "w1.0.connections.client_ip.10.0.0.1";
     Decrement "w1.0.connections.stream.articles";
     Decrement "w1.0.connections.stream.edits";
     Decrement "w1.0.connections.client_ip.10.0.0.1"].
Proof. vm_compute. reflexivity. Qed.

Example route_unknown_stream :
  engine_call (stream_route Fixtures.strict_host Fixtures.open_conf
                 (Fixtures.get "articles,unknownstream" None []) Fixtures.idle)
  = inl (Http {| status := 400; type := "not_found"; title := "Stream Not Found";
                 detail := "Invalid streams: unknownstream" |}).
Proof. vm_compute. reflexivity. Qed.

Example route_bad_since :
  engine_call (stream_route Fixtures.strict_host Fixtures.open_conf
                 (Fixtures.get "articles" (Some "not-a-real-date") []) Fixtures.idle)
  = inl (Http {| status := 400; type := "invalid_timestamp"; title := "Invalid timestamp";
                 detail := "since timestamp is not a UTC milliseconds unix epoch and was not parseable: 'not-a-real-date'" |}).
Proof. vm_compute. reflexivity. Qed.

(** ** Facts about strings *)

Lemma append_assoc (a b c : string) : (a +:+ b) +:+ c = a +:+ (b +:+ c).
Proof.
  induction a as [|x a IH]; [reflexivity|].
  change (String x ((a +:+ b) +:+ c) = String x (a +:+ (b +:+ c))).
  by rewrite IH.
Qed.

Lemma append_empty (a b : string) : a +:+ b = "" → a = "" ∧ b = "".
Proof.
  destruct a as [|x a]; intros Heq.
  - change (b = "") in Heq. by subst.
  - change (String x (a +:+ b) = "") in Heq. discriminate.
Qed.

Lemma list_ascii_of_append (a b : string) :
  list_ascii_of_string (a +:+ b)
  = (list_ascii_of_string a ++ list_ascii_of_string b)%list.
Proof.
  induction a as [|x a IH]; [reflexivity|].
  change (x :: list_ascii_of_string (a +:+ b)
          = x :: (list_ascii_of_string a ++ list_ascii_of_string b)%list).
  by rewrite IH.
Qed.

Lemma append_inj_r (a b c : string) : a +:+ c = b +:+ c → a = b.
Proof.
  intros Heq.
  apply (f_equal list_ascii_of_string) in Heq.
  rewrite !list_ascii_of_append in Heq.
  apply app_inv_tail in Heq.
  apply (f_equal string_of_list_ascii) in Heq.
  by rewrite !string_of_list_ascii_of_string in Heq.
Qed.

Lemma append_inj_l (a b c : string) : a +:+ b = a +:+ c → b = c.
Proof. apply String.app_inj. Qed.

(** ** Facts about [isNaN] on strings *)








(** ** Properties of the route *)

Section Properties.

Context {C : Type} `{IntervalCounter C}.
Variable h : host.
Variable app : app_conf.

Lemma increment_all_nil w : increment_all [] w = w.
Proof. destruct w; unfold increment_all; simpl. by rewrite app_nil_r. Qed.

Lemma decrement_all_nil w : decrement_all [] w = w.
Proof. destruct w; unfold decrement_all; simpl. by rewrite app_nil_r. Qed.

Lemma increment_all_app k1 k2 w :
  increment_all k2 (increment_all k1 w) = increment_all (k1 ++ k2) w.
Proof.
  unfold increment_all; simpl.
  by rewrite fold_left_app, map_app, app_assoc.
Qed.

Lemma decrement_all_app k1 k2 w :
  decrement_all k2 (decrement_all k1 w) = decrement_all (k1 ++ k2) w.
Proof.
  unfold decrement_all; simpl.
  by rewrite fold_left_app, map_app, app_assoc.
Qed.

Lemma forEach_increment (f : string → string) l w :
  forEach l (fun s => intervalCounter_increment (f s)) w
  = (inr tt, increment_all (map f l) w).
Proof.
  revert w; induction l as [|x l IH]; intros w; simpl.
  - by rewrite increment_all_nil.
  - unfold mbind, M_bind, bind; simpl. rewrite IH.
    unfold increment_all; simpl. by rewrite <- app_assoc.
Qed.

Lemma forEach_decrement (f : string → string) l w :
  forEach l (fun s => intervalCounter_decrement (f s)) w
  = (inr tt, decrement_all (map f l) w).
Proof.
  revert w; induction l as [|x l IH]; intros w; simpl.
  - by rewrite decrement_all_nil.
  - unfold mbind, M_bind, bind; simpl. rewrite IH.
    unfold decrement_all; simpl. by rewrite <- app_assoc.
Qed.

(** The close listener decrements the session's keys, in order, and never
    throws. *)
Lemma close_listener_run streams ccm w :
  close_listener h app streams ccm w
  = (inr tt, decrement_all (session_keys h app streams ccm) w).
Proof.
  unfold close_listener, session_keys, mbind, M_bind, bind.
  rewrite forEach_decrement.
  destruct (JS.truthy (of_option ccm)); simpl.
  - by rewrite <- decrement_all_app.
  - by rewrite app_nil_r.
Qed.

(** Neither validation step touches the world. *)
Lemma check_client_world req (w : world C) : snd (check_client h app req w) = w.
Proof.
  unfold check_client.
  destruct (client_ip_connection_limit app) as [limit|]; [|done].
  destruct (JS.truthy (JS.Num limit)); [|done].
  destruct (negb _); [done|].
  unfold mbind, M_bind, bind, intervalCounter_get; simpl.
  by destruct (limit <=? _).
Qed.

Lemma resolve_since_world since (w : world C) : snd (resolve_since h since w) = w.
Proof.
  unfold resolve_since.
  by destruct (JS.defined _ && JS.isNaN _).
Qed.

(** The route, one validation step after the other. *)
Lemma stream_route_eq req (w : world C) :
  stream_route h app req w =
  match fst (check_client h app req w) with
  | inl e => (inl e, w)
  | inr ccm =>
      match invalid_of app req with
      | _ :: _ => (inl (Http (stream_not_found (invalid_of app req))), w)
      | [] =>
          match flatMap_topics app (requested req) with
          | inl e => (inl e, w)
          | inr topics =>
              match fst (resolve_since h (query_since req) w) with
              | inl e => (inl e, w)
              | inr ts =>
                  (inr {| on_close := close_listener h app (requested req) ccm;
                          kafkaSse :=
                            {| arg_topics := topics;
                               allowedTopics := topics;
                               useTimestampForId := true;
                               responseHeaders :=
                                 if JS.has_own "content-type" (headers req)
                                 then {[ "content-type" := template (headers req !! "content-type") ]}
                                 else ∅;
                               disableSSEFormatting :=
                                 JS.has_own "content-type" (headers req)
                                 && JS.startsWith
                                      (template ((if JS.has_own "content-type" (headers req)
                                                  then {[ "content-type" := template (headers req !! "content-type") ]}
                                                  else ∅ : gmap string string) !! "content-type"))
                                      "application/json";
                               atTimestamp := ts |} |},
                   increment_all (session_keys h app (requested req) ccm) w)
              end
          end
      end
  end.
Proof.
  unfold stream_route, mbind, M_bind, bind.
  pose proof (check_client_world req w) as Hc.
  destruct (check_client h app req w) as [[e|ccm] w1]; simpl in *; subst w1; [done|].
  fold (requested req). fold (invalid_of app req).
  destruct (invalid_of app req) as [|x l]; simpl; [|done].
  destruct (flatMap_topics app (requested req)) as [e|topics]; simpl; [done|].
  pose proof (resolve_since_world (query_since req) w) as Hs.
  destruct (resolve_since h (query_since req) w) as [[e|ts] w2]; simpl in *; subst w2; [done|].
  rewrite forEach_increment.
  unfold session_keys.
  destruct (JS.truthy (of_option ccm)); simpl.
  - by rewrite <- increment_all_app.
  - by rewrite app_nil_r.
Qed.

(** *** The client check, case by case *)

Lemma check_client_unlimited req (w : world C) :
  (∀ limit, ¬ limit_is app limit) → check_client h app req w = (inr None, w).
Proof.
  intros Hno. unfold check_client.
  destruct (client_ip_connection_limit app) as [limit|] eqn:Hl; [|done].
  destruct (decide (limit = 0)) as [->|Hne]; [done|].
  destruct (Hno limit). by split.
Qed.

Lemma check_client_missing req (w : world C) limit :
  limit_is app limit →
  JS.truthy (of_option (headers req !! "x-client-ip")) = false →
  check_client h app req w = (inl (Http missing_client_ip), w).
Proof.
  intros [Hl Hne] Hh. unfold check_client. rewrite Hl, Hh; simpl.
  by destruct (Z.eqb_spec limit 0).
Qed.

Lemma check_client_present req (w : world C) limit ip :
  limit_is app limit →
  headers req !! "x-client-ip" = Some ip → ip ≠ "" →
  check_client h app req w
  = if limit <=? reading w (client_key h app ip)
    then (inl (Http too_many_requests), w)
    else (inr (Some (client_key h app ip)), w).
Proof.
  intros [Hl Hne] Hh Hip. unfold check_client. rewrite Hl, Hh; simpl.
  destruct (Z.eqb_spec limit 0); [done|]; simpl.
  destruct (String.eqb_spec ip ""); [done|]; simpl.
  unfold mbind, M_bind, bind, intervalCounter_get, reading, client_key; simpl.
  assert (match ic_get (counter w) (clientConnectionMetricPrefix h app +:+ "." +:+ ip) with
          | Some n => if negb (n =? 0) then n else 0
          | None => 0
          end = default 0 (ic_get (counter w) (clientConnectionMetricPrefix h app +:+ "." +:+ ip)))
    as ->.
  { destruct (ic_get _ _) as [m|]; [|done]; simpl.
    by destruct (Z.eqb_spec m 0) as [->|]. }
  by destruct (_ <=? _).
Qed.

Lemma client_key_truthy ip : JS.truthy (JS.Str (client_key h app ip)) = true.
Proof.
  simpl. destruct (String.eqb_spec (client_key h app ip) "") as [Heq|]; [|done].
  unfold client_key, clientConnectionMetricPrefix in Heq.
  rewrite append_assoc in Heq.
  apply append_empty in Heq as [_ Heq]. inversion Heq.
Qed.

(** Every outcome of the client check: no limit, a missing header, a
    client at its limit, or a client below it. *)
Lemma check_client_cases req (w : world C) :
  check_client h app req w = (inr None, w) ∧ (∀ limit, ¬ limit_is app limit)
  ∨ check_client h app req w = (inl (Http missing_client_ip), w)
  ∨ check_client h app req w = (inl (Http too_many_requests), w)
  ∨ ∃ ip, check_client h app req w = (inr (Some (client_key h app ip)), w).
Proof.
  destruct (client_ip_connection_limit app) as [limit|] eqn:Hl.
  - destruct (decide (limit = 0)) as [->|Hne].
    + left. split.
      * unfold check_client. by rewrite Hl.
      * intros l [Hl' Hne]. congruence.
    + right.
      destruct (JS.truthy (of_option (headers req !! "x-client-ip"))) eqn:Hh.
      * destruct (headers req !! "x-client-ip") as [ip|] eqn:Hip; [|done].
        assert (ip ≠ "") by (intros ->; done).
        rewrite (check_client_present req w limit ip); [|done..].
        destruct (_ <=? _); eauto.
      * left. by apply (check_client_missing req w limit).
  - left. split.
    + unfold check_client. by rewrite Hl.
    + intros l [Hl' _]. congruence.
Qed.

(** *** The [since] parameter, case by case *)

Lemma Date_parse_cases s :
  JS.Date_parse (date_parse_host h) s = JS.NaN
  ∨ ∃ t, JS.Date_parse (date_parse_host h) s = JS.Num t.
Proof.
  unfold JS.Date_parse.
  destruct (JS.parse_utc_format s); [eauto|].
  destruct (date_parse_host h s); eauto.
Qed.

Lemma resolve_since_eq since (w : world C) :
  resolve_since h since w =
  match since with
  | None => (inr JS.Undefined, w)
  | Some raw =>
      if JS.isNaN_string raw then
        match JS.Date_parse (date_parse_host h) raw with
        | JS.Num t => (inr (JS.Num t), w)
        | _ => (inl (Http (invalid_timestamp raw)), w)
        end
      else (inr (JS.Str raw), w)
  end.
Proof.
  unfold resolve_since.
  destruct since as [raw|]; simpl; [|done].
  destruct (String.eqb_spec raw "") as [->|Hne]; simpl; [done|].
  destruct (JS.isNaN_string raw) eqn:Hnan; simpl.
  - destruct (Date_parse_cases raw) as [->|[t ->]]; done.
  - by rewrite Hnan.
Qed.

(** *** Topic expansion *)

Lemma invalid_nil_iff (l : list string) :
  filter (fun stream => negb (JS.has_property stream (conf_streams app))) l = [] ↔
  Forall (fun s => JS.has_property s (conf_streams app) = true) l.
Proof.
  induction l as [|s l IH]; [by split|].
  rewrite filter_cons, Forall_cons.
  destruct (JS.has_property s (conf_streams app)) eqn:Hp;
    case_decide as Hd; simpl in Hd; try done.
  - rewrite IH. intuition.
  - split; [done|]. by intros [? _].
Qed.

Lemma flatMap_topics_valid (l : list string) :
  Forall (fun s => JS.has_property s (conf_streams app) = true) l →
  flatMap_topics app l = inr (flat_map (contribution app) l).
Proof.
  induction 1 as [|s l Hs _ IH]; [done|]; simpl.
  rewrite IH. unfold stream_topics, contribution.
  unfold JS.has_property in Hs.
  destruct (conf_streams app !! s); [done|]. by rewrite Hs.
Qed.

(** *** Rejections *)

(** The kinds of error the route can end with. *)
Lemma rejection_kinds req (w w' : world C) e :
  stream_route h app req w = (inl e, w') →
  e = Http missing_client_ip
  ∨ e = Http too_many_requests
  ∨ e = Http (stream_not_found (invalid_of app req))
  ∨ ∃ raw, query_since req = Some raw ∧ e = Http (invalid_timestamp raw).
Proof.
  rewrite stream_route_eq.
  destruct (check_client_cases req w) as [[-> _]|[->|[->|[ip ->]]]]; simpl;
    try (intros [= <- _]; by eauto).
  all: destruct (invalid_of app req) as [|x l] eqn:Hinv;
    [|intros [= <- _]; by eauto].
  all: apply invalid_nil_iff in Hinv as Hvalid;
    rewrite (flatMap_topics_valid _ Hvalid), resolve_since_eq.
  all: destruct (query_since req) as [raw|]; simpl; [|done].
  all: destruct (JS.isNaN_string raw); simpl; [|done].
  all: destruct (JS.Date_parse _ raw); simpl; try done.
  all: intros [= <- _]; by eauto 10.
Qed.

(** C2: when the route ends with an error, the world it leaves is the world
    it started in: no increment or decrement was made, and every key reads
    as before.  The error is one of the four validation errors. *)
Theorem rejection_leaves_counters req (w w' : world C) e :
  stream_route h app req w = (inl e, w') →
  calls w' = calls w
  ∧ counter w' = counter w
  ∧ (∀ key, ic_get (counter w') key = ic_get (counter w) key)
  ∧ ∃ err, e = Http err
      ∧ In (type err) ["bad_request"; "too_many_requests"; "not_found"; "invalid_timestamp"].
Proof.
  intros Hrun.
  assert (w' = w) as ->.
  { rewrite stream_route_eq in Hrun.
    destruct (fst (check_client h app req w)); [by inversion Hrun|].
    destruct (invalid_of app req); [|by inversion Hrun].
    destruct (flatMap_topics app (requested req)); [by inversion Hrun|].
    destruct (fst (resolve_since h (query_since req) w)); by inversion Hrun. }
  repeat split; try done.
  destruct (rejection_kinds _ _ _ _ Hrun) as [->|[->|[->|[raw [_ ->]]]]];
    eexists; (split; [reflexivity|]); simpl; tauto.
Qed.

(** C5: with a limit configured and a client whose counter reads at least
    the limit, the route throws the 429 error and leaves the world as it
    was, so the client's counter still reads the same. *)
Theorem client_limit_enforced req (w : world C) limit ip :
  limit_is app limit →
  headers req !! "x-client-ip" = Some ip → ip ≠ "" →
  limit ≤ reading w (client_key h app ip) →
  stream_route h app req w = (inl (Http too_many_requests), w)
  ∧ status too_many_requests = 429.
Proof.
  intros Hl Hh Hip Hge. split; [|done].
  rewrite stream_route_eq, (check_client_present req w limit ip) by done.
  by destruct (Z.leb_spec limit (reading w (client_key h app ip))); [|lia].
Qed.

(** C7: with a limit configured and no (or an empty) X-Client-IP header,
    the route throws the missing-header error at once, whatever the
    requested streams and the since parameter are, and leaves the world as
    it was. *)
Theorem missing_client_ip_rejected_first req (w : world C) limit :
  limit_is app limit →
  JS.truthy (of_option (headers req !! "x-client-ip")) = false →
  stream_route h app req w = (inl (Http missing_client_ip), w).
Proof.
  intros Hl Hh.
  by rewrite stream_route_eq, (check_client_missing req w limit).
Qed.

(** *** Admissions *)

(** What an admitted request went through. *)
Lemma admission_inv req (w w' : world C) a :
  stream_route h app req w = (inr a, w') →
  ∃ ccm ts,
    fst (check_client h app req w) = inr ccm
    ∧ Forall (fun s => JS.has_property s (conf_streams app) = true) (requested req)
    ∧ fst (resolve_since h (query_since req) w) = inr ts
    ∧ w' = increment_all (session_keys h app (requested req) ccm) w
    ∧ on_close a = close_listener h app (requested req) ccm
    ∧ arg_topics (kafkaSse a) = flat_map (contribution app) (requested req)
    ∧ allowedTopics (kafkaSse a) = flat_map (contribution app) (requested req)
    ∧ atTimestamp (kafkaSse a) = ts
    ∧ disableSSEFormatting (kafkaSse a)
      = match headers req !! "content-type" with
        | Some v => JS.startsWith v "application/json"
        | None => false
        end.
Proof.
  rewrite stream_route_eq.
  destruct (fst (check_client h app req w)) as [e|ccm]; [done|].
  destruct (invalid_of app req) as [|x l] eqn:Hinv; [|done].
  apply invalid_nil_iff in Hinv as Hvalid.
  rewrite (flatMap_topics_valid _ Hvalid).
  destruct (fst (resolve_since h (query_since req) w)) as [e|ts]; [done|].
  intros [= <- <-]. exists ccm, ts; simpl.
  repeat split; try done.
  unfold JS.has_own.
  destruct (headers req !! "content-type") as [v|]; simpl; [|done].
  by rewrite lookup_singleton_eq.
Qed.

(** The three checks a request has to pass, and what passing gives. *)
Lemma stream_route_admits req (w : world C) ccm ts :
  fst (check_client h app req w) = inr ccm →
  invalid_of app req = [] →
  fst (resolve_since h (query_since req) w) = inr ts →
  ∃ a, stream_route h app req w
       = (inr a, increment_all (session_keys h app (requested req) ccm) w).
Proof.
  intros Hc Hinv Hts. rewrite stream_route_eq, Hc, Hinv.
  apply invalid_nil_iff in Hinv.
  rewrite (flatMap_topics_valid _ Hinv), Hts. by eexists.
Qed.

(** C9: the engine is told to drop the SSE formatting exactly when the
    request has a content-type header whose value starts with
    application/json; without the header, or with any other value, the
    formatting stays on. *)
Theorem framing_follows_content_type req (w w' : world C) a :
  stream_route h app req w = (inr a, w') →
  disableSSEFormatting (kafkaSse a) = true
  ↔ ∃ v, headers req !! "content-type" = Some v
         ∧ JS.startsWith v "application/json" = true.
Proof.
  intros Hrun.
  destruct (admission_inv _ _ _ _ Hrun) as (ccm & ts & _ & _ & _ & _ & _ & _ & _ & _ & ->).
  destruct (headers req !! "content-type") as [v|].
  - split; [eauto|]. by intros (v' & [= <-] & Hv).
  - split; [done|]. by intros (v' & [=] & _).
Qed.

(** *** The resume hint *)

Lemma invalid_timestamp_inj a b : invalid_timestamp a = invalid_timestamp b → a = b.
Proof.
  intros [= Hd]. apply append_inj_l in Hd. by apply append_inj_r in Hd.
Qed.


(** When the route ends with the invalid-timestamp error for [raw]: the
    request passes the client check and names only known streams, since is
    present with value [raw], [isNaN] holds of [raw] and [Date.parse] gives
    [NaN] for it.  The error's detail then ends with [raw] in quotes. *)
Theorem invalid_timestamp_iff req (w : world C) raw :
  stream_route h app req w = (inl (Http (invalid_timestamp raw)), w)
  ↔ (∃ ccm, fst (check_client h app req w) = inr ccm)
    ∧ invalid_of app req = []
    ∧ query_since req = Some raw
    ∧ JS.isNaN_string raw = true
    ∧ JS.Date_parse (date_parse_host h) raw = JS.NaN.
Proof.
  rewrite stream_route_eq. split.
  - destruct (fst (check_client h app req w)) as [e|ccm] eqn:Hc.
    { destruct (check_client_cases req w) as [[Hk _]|[Hk|[Hk|[ip Hk]]]];
        rewrite Hk in Hc; simpl in Hc; try done.
      all: injection Hc as <-; by intros [=]. }
    destruct (invalid_of app req) as [|x l] eqn:Hinv; [|by intros [=]].
    apply invalid_nil_iff in Hinv as Hvalid.
    rewrite (flatMap_topics_valid _ Hvalid), resolve_since_eq.
    destruct (query_since req) as [raw'|]; simpl; [|done].
    destruct (JS.isNaN_string raw') eqn:Hnan; simpl; [|done].
    destruct (Date_parse_cases raw') as [Hd|[t Hd]]; rewrite Hd; [|done].
    simpl. intros Heq.
    assert (invalid_timestamp raw' = invalid_timestamp raw) as Hi by congruence.
    apply invalid_timestamp_inj in Hi as ->. by eauto 10.
  - intros ((ccm & ->) & Hinv & Hq & Hnan & Hd).
    rewrite Hinv.
    apply invalid_nil_iff in Hinv.
    by rewrite (flatMap_topics_valid _ Hinv), resolve_since_eq, Hq, Hnan, Hd.
Qed.

(** *** Counter keys *)

Lemma stream_key_inj a b : stream_key h app a = stream_key h app b → a = b.
Proof.
  unfold stream_key. intros Heq.
  apply append_inj_l in Heq. by apply append_inj_l in Heq.
Qed.

Lemma stream_key_not_client s ip : stream_key h app s ≠ client_key h app ip.
Proof.
  unfold stream_key, client_key, streamConnectionMetricPrefix,
    clientConnectionMetricPrefix.
  rewrite !append_assoc. intros Heq.
  apply append_inj_l in Heq. discriminate Heq.
Qed.

Lemma admitted_client req (w : world C) ccm :
  fst (check_client h app req w) = inr ccm →
  ccm = None ∨ ∃ ip, ccm = Some (client_key h app ip).
Proof.
  destruct (check_client_cases req w) as [[-> _]|[->|[->|[ip ->]]]]; simpl;
    intros [=]; subst; eauto.
Qed.

Lemma occurrences_app `{EqDecision A} (x : A) l1 l2 :
  occurrences x (l1 ++ l2) = (occurrences x l1 + occurrences x l2)%nat.
Proof. apply count_occ_app. Qed.

Lemma occurrences_map `{EqDecision A} `{EqDecision B} (f : A → B) x l :
  (∀ a b, f a = f b → a = b) →
  occurrences (f x) (map f l) = occurrences x l.
Proof. intros Hinj. symmetry. by apply count_occ_map. Qed.

Lemma occurrences_absent `{EqDecision A} (x : A) l :
  ¬ In x l → occurrences x l = 0%nat.
Proof. apply count_occ_not_In. Qed.

Lemma session_keys_occurrences req (w : world C) ccm name :
  fst (check_client h app req w) = inr ccm →
  occurrences (stream_key h app name) (session_keys h app (requested req) ccm)
  = occurrences name (requested req).
Proof.
  intros Hc. unfold session_keys.
  rewrite occurrences_app, (occurrences_map _ _ _ stream_key_inj).
  rewrite (occurrences_absent (stream_key h app name)
             (if JS.truthy (of_option ccm) then [template ccm] else [])); [lia|].
  destruct (admitted_client _ _ _ Hc) as [->|[ip ->]]; simpl; [tauto|].
  destruct (negb _); simpl; [|tauto].
  intros [Heq|[]]. by apply (stream_key_not_client name ip).
Qed.

Lemma NoDup_map_inj {A B} (f : A → B) (l : list A) :
  (∀ a b, f a = f b → a = b) → NoDup l → NoDup (map f l).
Proof.
  intros Hinj. induction 1 as [|x l Hx Hnd IH]; simpl; constructor; [|done].
  intros (y & Heq & Hy)%list_elem_of_In%in_map_iff.
  apply Hinj in Heq as ->. by apply list_elem_of_In in Hy.
Qed.

Lemma session_keys_NoDup req (w : world C) ccm :
  fst (check_client h app req w) = inr ccm →
  NoDup (requested req) → NoDup (session_keys h app (requested req) ccm).
Proof.
  intros Hc Hnd. unfold session_keys.
  apply NoDup_app. split; [|split].
  - apply NoDup_map_inj; [|done].
    intros a b. apply stream_key_inj.
  - intros key Hin%list_elem_of_In Hin'%list_elem_of_In.
    apply in_map_iff in Hin as (s & <- & _).
    destruct (admitted_client _ _ _ Hc) as [->|[ip ->]]; simpl in Hin'; [done|].
    destruct (negb _); simpl in Hin'; [|done].
    destruct Hin' as [Heq|[]]. by apply (stream_key_not_client s ip).
  - destruct (JS.truthy (of_option ccm)); [apply NoDup_singleton|apply NoDup_nil_2].
Qed.

(** C1, as the code has it: for an admitted connection the close listener
    makes exactly the decrements that mirror the increments of admission,
    key by key and in the same order, and nothing else; so every key is
    decremented as often as it was incremented, and exactly once when the
    requested names are pairwise distinct. *)
Theorem release_mirrors_admission req (w w' : world C) a :
  stream_route h app req w = (inr a, w') →
  ∃ keys,
    calls w' = (calls w ++ map Increment keys)%list
    ∧ counter w' = fold_left ic_increment keys (counter w)
    ∧ (∀ w2, ∃ w3, on_close a w2 = (inr tt, w3)
         ∧ calls w3 = (calls w2 ++ map Decrement keys)%list
         ∧ counter w3 = fold_left ic_decrement keys (counter w2))
    ∧ (∀ key, occurrences (Decrement key) (map Decrement keys)
              = occurrences (Increment key) (map Increment keys))
    ∧ (NoDup (requested req) →
         ∀ key, In key keys → occurrences (Decrement key) (map Decrement keys) = 1%nat).
Proof.
  intros Hrun.
  destruct (admission_inv _ _ _ _ Hrun)
    as (ccm & ts & Hc & _ & _ & -> & Hclose & _).
  exists (session_keys h app (requested req) ccm).
  split; [done|]. split; [done|]. split; [|split].
  - intros w2. rewrite Hclose, close_listener_run. by eexists.
  - intros key.
    rewrite (occurrences_map Decrement), (occurrences_map Increment); congruence.
  - intros Hnd key Hin.
    rewrite (occurrences_map Decrement) by congruence.
    apply session_keys_NoDup with (w := w) (ccm := ccm) in Hnd; [|done].
    apply NoDup_ListNoDup in Hnd.
    by apply (NoDup_count_occ' (decide_rel (=))).
Qed.

(** *** Stream names *)



(** *** Topics *)

Lemma contribution_configured (l : list string) :
  Forall (fun s => is_Some (conf_streams app !! s)) l →
  flat_map (contribution app) l = map JS.Str (flat_map (configured_topics app) l).
Proof.
  induction 1 as [|s l [sc Hs] _ IH]; [done|]; simpl.
  rewrite IH, map_app. unfold contribution, configured_topics. by rewrite Hs.
Qed.

(** C3, as the code has it: when every requested name is in the catalog,
    the topic list handed to the engine (and the allowed-topics list with
    it) is the topic lists of the requested names one after the other, in
    request order.  It holds exactly the topics of the union, and a topic
    that two requested names share is in it once for each. *)
Theorem topics_are_concatenated req (w w' : world C) a :
  stream_route h app req w = (inr a, w') →
  Forall (fun s => is_Some (conf_streams app !! s)) (requested req) →
  arg_topics (kafkaSse a) = map JS.Str (flat_map (configured_topics app) (requested req))
  ∧ allowedTopics (kafkaSse a) = arg_topics (kafkaSse a)
  ∧ (∀ t, In (JS.Str t) (arg_topics (kafkaSse a))
          ↔ ∃ s, In s (requested req) ∧ In t (configured_topics app s)).
Proof.
  intros Hrun Hown.
  destruct (admission_inv _ _ _ _ Hrun)
    as (ccm & ts & _ & _ & _ & _ & _ & Ht & Ha & _).
  rewrite Ha, Ht, (contribution_configured _ Hown).
  split; [done|]. split; [done|].
  intros t. rewrite in_map_iff. split.
  - intros (t' & [= ->] & Hin). apply in_flat_map in Hin. done.
  - intros Hin. exists t. split; [done|]. by apply in_flat_map.
Qed.

Lemma contribution_occurrences (l : list string) name sc t :
  conf_streams app !! name = Some sc →
  (occurrences name l * occurrences t (topics sc)
   ≤ occurrences (JS.Str t) (flat_map (contribution app) l))%nat.
Proof.
  intros Hsc. induction l as [|s l IH]; simpl; [done|].
  rewrite occurrences_app. unfold occurrences at 1. simpl.
  destruct (decide_rel eq s name) as [->|Hne]; simpl.
  - unfold contribution at 1. rewrite Hsc.
    rewrite (occurrences_map JS.Str) by congruence.
    fold (occurrences name l). lia.
  - fold (occurrences name l). lia.
Qed.

(** C10: a name requested k times has its key incremented k times at
    admission and decremented k times at close, and each of its topics is
    in the topic list once for each of the k occurrences (and once more for
    every other requested name that has it). *)
Theorem duplicates_are_kept req (w w' : world C) a name :
  stream_route h app req w = (inr a, w') →
  let k := occurrences name (requested req) in
  ∃ incs decs,
    calls w' = (calls w ++ incs)%list
    ∧ occurrences (Increment (stream_key h app name)) incs = k
    ∧ (∀ w2, ∃ w3, on_close a w2 = (inr tt, w3) ∧ calls w3 = (calls w2 ++ decs)%list)
    ∧ occurrences (Decrement (stream_key h app name)) decs = k
    ∧ (∀ sc t, conf_streams app !! name = Some sc →
         (k * occurrences t (topics sc)
          ≤ occurrences (JS.Str t) (arg_topics (kafkaSse a)))%nat).
Proof.
  intros Hrun k.
  destruct (admission_inv _ _ _ _ Hrun)
    as (ccm & ts & Hc & _ & _ & -> & Hclose & Ht & _).
  exists (map Increment (session_keys h app (requested req) ccm)),
         (map Decrement (session_keys h app (requested req) ccm)).
  split; [done|]. split; [|split; [|split]].
  - rewrite (occurrences_map Increment) by congruence.
    by apply session_keys_occurrences with (w := w).
  - intros w2. rewrite Hclose, close_listener_run. by eexists.
  - rewrite (occurrences_map Decrement) by congruence.
    by apply session_keys_occurrences with (w := w).
  - intros sc t Hsc. rewrite Ht. by apply contribution_occurrences.
Qed.

End Properties.

(** ** The properties at concrete requests *)

Import Fixtures.

(** A request for a name used twice: its key is decremented twice. *)
Lemma repeated_name_decremented_twice :
  fst (connection strict_host open_conf (get "articles,articles" None []) idle) = inr tt
  ∧ calls (snd (connection strict_host open_conf (get "articles,articles" None []) idle))
    = [Increment articles_key; Increment articles_key;
       Decrement articles_key; Decrement articles_key]
  ∧ occurrences (Decrement articles_key)
      (calls (snd (connection strict_host open_conf (get "articles,articles" None []) idle)))
    = 2%nat.
Proof. vm_compute. repeat split; reflexivity. Qed.

Lemma release_mirrors_admission_witness :
  ∃ a w',
    stream_route strict_host limited_conf (get "articles,edits" None client) idle = (inr a, w')
    ∧ ∃ keys,
        calls w' = (calls idle ++ map Increment keys)%list
        ∧ counter w' = fold_left ic_increment keys (counter idle)
        ∧ (∀ w2, ∃ w3, on_close a w2 = (inr tt, w3)
             ∧ calls w3 = (calls w2 ++ map Decrement keys)%list
             ∧ counter w3 = fold_left ic_decrement keys (counter w2))
        ∧ (∀ key, occurrences (Decrement key) (map Decrement keys)
                  = occurrences (Increment key) (map Increment keys))
        ∧ (NoDup (requested (get "articles,edits" None client)) →
             ∀ key, In key keys → occurrences (Decrement key) (map Decrement keys) = 1%nat).
Proof.
  destruct (stream_route_admits strict_host limited_conf (get "articles,edits" None client) idle (Some client_ip_key) JS.Undefined)
    as [a Hrun]; [vm_compute; reflexivity..|].
  eexists a, _. split; [exact Hrun|].
  exact (release_mirrors_admission _ _ _ _ _ _ Hrun).
Defined.

Lemma rejection_leaves_counters_witness :
  ∃ e w',
    stream_route strict_host open_conf (get "articles,unknownstream" None []) busy = (inl e, w')
    ∧ calls w' = calls busy
    ∧ counter w' = counter busy
    ∧ (∀ key, ic_get (counter w') key = ic_get (counter busy) key)
    ∧ ∃ err, e = Http err
        ∧ In (type err) ["bad_request"; "too_many_requests"; "not_found"; "invalid_timestamp"].
Proof.
  assert (stream_route strict_host open_conf (get "articles,unknownstream" None []) busy
          = (inl (Http (stream_not_found ["unknownstream"])), busy)) as Hrun
    by (vm_compute; reflexivity).
  eexists _, _. split; [exact Hrun|].
  exact (rejection_leaves_counters _ _ _ _ _ _ Hrun).
Defined.

(** Two streams that share a topic: the topic is handed over twice. *)
Lemma shared_topic_listed_twice :
  engine_call (stream_route strict_host open_conf (get "articles,edits" None []) idle)
  = inr {| arg_topics := [JS.Str "topic.articles"; JS.Str "topic.edits";
                          JS.Str "topic.articles"];
           allowedTopics := [JS.Str "topic.articles"; JS.Str "topic.edits";
                             JS.Str "topic.articles"];
           useTimestampForId := true;
           responseHeaders := ∅;
           disableSSEFormatting := false;
           atTimestamp := JS.Undefined |}
  ∧ occurrences (JS.Str "topic.articles")
      [JS.Str "topic.articles"; JS.Str "topic.edits"; JS.Str "topic.articles"] = 2%nat.
Proof. vm_compute. split; reflexivity. Qed.

Lemma topics_are_concatenated_witness :
  ∃ a w',
    stream_route strict_host open_conf (get "edits,articles" None []) idle = (inr a, w')
    ∧ arg_topics (kafkaSse a)
      = map JS.Str (flat_map (configured_topics open_conf) ["edits"; "articles"])
    ∧ allowedTopics (kafkaSse a) = arg_topics (kafkaSse a)
    ∧ (∀ t, In (JS.Str t) (arg_topics (kafkaSse a))
            ↔ ∃ s, In s ["edits"; "articles"] ∧ In t (configured_topics open_conf s)).
Proof.
  destruct (stream_route_admits strict_host open_conf (get "edits,articles" None []) idle None JS.Undefined)
    as [a Hrun]; [vm_compute; reflexivity..|].
  eexists a, _. split; [exact Hrun|].
  assert (requested (get "edits,articles" None []) = ["edits"; "articles"]) as Hreq
    by (vm_compute; reflexivity).
  rewrite <- Hreq.
  apply (topics_are_concatenated _ _ _ _ _ _ Hrun).
  rewrite Hreq.
  repeat (constructor; [eexists; vm_compute; reflexivity|]). constructor.
Defined.

(** C4: a since that is present but empty is neither a base-10 integer
    nor a date, so the timestamp is defined and is not a number of
    milliseconds; yet the route does not throw the invalid-timestamp error:
    it admits the request and hands the empty string to the engine. *)
Lemma empty_since_admitted :
  base10_integer "" = false
  ∧ JS.Date_parse (date_parse_host strict_host) "" = JS.NaN
  ∧ engine_call (stream_route strict_host open_conf (get "articles" (Some "") []) idle)
    = inr {| arg_topics := [JS.Str "topic.articles"];
             allowedTopics := [JS.Str "topic.articles"];
             useTimestampForId := true;
             responseHeaders := ∅;
             disableSSEFormatting := false;
             atTimestamp := JS.Str "" |}.
Proof. vm_compute. repeat split; reflexivity. Qed.

Lemma client_limit_enforced_witness :
  stream_route strict_host limited_conf (get "articles" None client) busy
  = (inl (Http too_many_requests), busy)
  ∧ status too_many_requests = 429.
Proof.
  apply (client_limit_enforced strict_host limited_conf _ busy 2 "10.0.0.1").
  - split; [reflexivity|lia].
  - vm_compute. reflexivity.
  - discriminate.
  - assert (reading busy (client_key strict_host limited_conf "10.0.0.1") = 2) as ->
      by (vm_compute; reflexivity).
    lia.
Defined.



Lemma missing_client_ip_rejected_first_witness :
  stream_route strict_host limited_conf (get "unknownstream" (Some "not-a-real-date") []) idle
  = (inl (Http missing_client_ip), idle).
Proof.
  apply (missing_client_ip_rejected_first strict_host limited_conf _ _ 2).
  - split; [reflexivity|lia].
  - reflexivity.
Defined.


Lemma framing_follows_content_type_witness :
  ∃ a w',
    stream_route strict_host open_conf
      (get "articles" None [("content-type", "application/json; charset=utf-8")]) idle
    = (inr a, w')
    ∧ (disableSSEFormatting (kafkaSse a) = true
       ↔ ∃ v, headers (get "articles" None
                         [("content-type", "application/json; charset=utf-8")])
                !! "content-type" = Some v
              ∧ JS.startsWith v "application/json" = true).
Proof.
  destruct (stream_route_admits strict_host open_conf (get "articles" None [("content-type", "application/json; charset=utf-8")]) idle None JS.Undefined)
    as [a Hrun]; [vm_compute; reflexivity..|].
  eexists a, _. split; [exact Hrun|].
  exact (framing_follows_content_type _ _ _ _ _ _ Hrun).
Defined.

Lemma duplicates_are_kept_witness :
  ∃ a w',
    stream_route strict_host open_conf (get "edits,articles,edits" None []) idle = (inr a, w')
    ∧ ∃ incs decs,
        calls w' = (calls idle ++ incs)%list
        ∧ occurrences (Increment (stream_key strict_host open_conf "edits")) incs = 2%nat
        ∧ (∀ w2, ∃ w3, on_close a w2 = (inr tt, w3) ∧ calls w3 = (calls w2 ++ decs)%list)
        ∧ occurrences (Decrement (stream_key strict_host open_conf "edits")) decs = 2%nat
        ∧ (∀ sc t, conf_streams open_conf !! "edits" = Some sc →
             (2 * occurrences t (topics sc)
              ≤ occurrences (JS.Str t) (arg_topics (kafkaSse a)))%nat).
Proof.
  destruct (stream_route_admits strict_host open_conf (get "edits,articles,edits" None []) idle None JS.Undefined)
    as [a Hrun]; [vm_compute; reflexivity..|].
  eexists a, _. split; [exact Hrun|].
  exact (duplicates_are_kept _ _ _ _ _ _ "edits" Hrun).
Defined.

(** ** Further checks *)

(** The route never throws a [TypeError]: validation leaves only names that
    resolve. *)
Lemma no_TypeError `{IntervalCounter C} h app req (w w' : world C) :
  stream_route h app req w ≠ (inl TypeError, w').
Proof.
  intros Hrun.
  destruct (rejection_kinds _ _ _ _ _ _ Hrun) as [?|[?|[?|(raw & _ & ?)]]]; done.
Qed.

(** A name that is a property of [Object.prototype] passes the [in] test
    although the catalog does not have it, and contributes [undefined]. *)
Example inherited_name_admitted :
  engine_call (stream_route strict_host open_conf (get "toString" None []) idle)
  = inr {| arg_topics := [JS.Undefined];
           allowedTopics := [JS.Undefined];
           useTimestampForId := true;
           responseHeaders := ∅;
           disableSSEFormatting := false;
           atTimestamp := JS.Undefined |}.
Proof. vm_compute. reflexivity. Qed.

(** Scenario A: with limit 2, two requests of one client are admitted and
    bring its counter to 2; a third is refused and the counter stays 2. *)
Example scenario_A :
  let req := get "articles" None client in
  let w1 := snd (stream_route strict_host limited_conf req idle) in
  let w2 := snd (stream_route strict_host limited_conf req w1) in
  reading w2 client_ip_key = 2
  ∧ engine_call (stream_route strict_host limited_conf req w2) = inl (Http too_many_requests)
  ∧ reading (snd (stream_route strict_host limited_conf req w2)) client_ip_key = 2.
Proof. vm_compute. repeat split; reflexivity. Qed.

(** Strings [isNaN] takes for numbers although they are not base-10
    integers are passed on as they are. *)
Example numeric_looking_since :
  map (fun raw =>
         match engine_call (stream_route strict_host open_conf
                              (get "articles" (Some raw) []) idle) with
         | inr args => Some (atTimestamp args)
         | inl _ => None
         end)
      [" "; "Infinity"; "0x10"; "1e3"]
  = [Some (JS.Str " "); Some (JS.Str "Infinity"); Some (JS.Str "0x10");
     Some (JS.Str "1e3")].
Proof. vm_compute. reflexivity. Qed.

(** ** More properties of the route *)

Section Outcomes.

Context {C : Type} `{IntervalCounter C}.
Variable h : host.
Variable app : app_conf.

(** The client check decides between four cases, each with its outcome. *)
Lemma check_client_decide req (w : world C) :
  ((∀ limit, ¬ limit_is app limit)
   ∧ check_client h app req w = (inr None, w))
  ∨ ((∃ limit, limit_is app limit
        ∧ JS.truthy (of_option (headers req !! "x-client-ip")) = false)
     ∧ check_client h app req w = (inl (Http missing_client_ip), w))
  ∨ ((∃ limit ip, limit_is app limit
        ∧ headers req !! "x-client-ip" = Some ip ∧ ip ≠ ""
        ∧ limit ≤ reading w (client_key h app ip))
     ∧ check_client h app req w = (inl (Http too_many_requests), w))
  ∨ (∃ limit ip, limit_is app limit
       ∧ headers req !! "x-client-ip" = Some ip ∧ ip ≠ ""
       ∧ reading w (client_key h app ip) < limit
       ∧ check_client h app req w = (inr (Some (client_key h app ip)), w)).
Proof.
  destruct (client_ip_connection_limit app) as [limit|] eqn:Hl.
  - destruct (decide (limit = 0)) as [->|Hne].
    + left. split; [|by apply check_client_unlimited; intros l [? ?]; congruence].
      intros l [? ?]; congruence.
    + assert (limit_is app limit) as Hlim by done.
      right.
      destruct (JS.truthy (of_option (headers req !! "x-client-ip"))) eqn:Hh.
      * right.
        destruct (headers req !! "x-client-ip") as [ip|] eqn:Hip; [|done].
        assert (ip ≠ "") as Hnz by (intros ->; done).
        rewrite (check_client_present h app req w limit ip) by done.
        destruct (Z.leb_spec limit (reading w (client_key h app ip))).
        -- left. split; [|done]. by exists limit, ip.
        -- right. by exists limit, ip.
      * left. split; [by exists limit|].
        by apply (check_client_missing h app req w limit).
  - left. split; [|by apply check_client_unlimited; intros l [? ?]; congruence].
    intros l [? ?]; congruence.
Qed.

(** Once the client check is passed, the route ends with neither of the
    two client errors. *)
Lemma past_client_check req (w : world C) ccm e :
  fst (check_client h app req w) = inr ccm →
  fst (stream_route h app req w) = inl e →
  e ≠ Http missing_client_ip ∧ e ≠ Http too_many_requests.
Proof.
  intros Hc. rewrite stream_route_eq, Hc.
  destruct (invalid_of app req) as [|x l] eqn:Hinv.
  - apply invalid_nil_iff in Hinv.
    rewrite (flatMap_topics_valid _ _ Hinv), resolve_since_eq.
    destruct (query_since req) as [raw|]; simpl; [|done].
    destruct (JS.isNaN_string raw); simpl; [|done].
    destruct (JS.Date_parse _ raw); simpl; try done.
    all: intros [= <-]; split; intros [=].
  - simpl. intros [= <-]. split; intros [=].
Qed.

Lemma rejection_world req (w w' : world C) e :
  stream_route h app req w = (inl e, w') → w' = w.
Proof.
  rewrite stream_route_eq.
  destruct (fst (check_client h app req w)); [by intros [=]|].
  destruct (invalid_of app req); [|by intros [=]].
  destruct (flatMap_topics app (requested req)); [by intros [=]|].
  destruct (fst (resolve_since h (query_since req) w)); by intros [=].
Qed.


Lemma check_client_ok_iff req (w : world C) :
  (∃ ccm, fst (check_client h app req w) = inr ccm) ↔ client_admissible h app req w.
Proof.
  unfold client_admissible.
  destruct (check_client_decide req w)
    as [[Hno ->]|[[(l & Hl & Hh) ->]|[[(l & ip & Hl & Hip & Hnz & Hge) ->]
        |(l & ip & Hl & Hip & Hnz & Hlt & ->)]]]; simpl.
  - split; [|by eauto]. intros _ limit Hlim. by destruct (Hno limit).
  - split; [by intros [? [=]]|]. intros Hadm.
    destruct (Hadm l Hl) as (ip & Hip & Hnz & _).
    rewrite Hip in Hh. simpl in Hh. by destruct (String.eqb_spec ip "").
  - split; [by intros [? [=]]|]. intros Hadm.
    destruct (Hadm l Hl) as (ip' & Hip' & _ & Hlt).
    rewrite Hip in Hip'. injection Hip' as <-. lia.
  - split; [|by eauto]. intros _ limit [Hlim Hne].
    destruct Hl as [Hl _]. rewrite Hl in Hlim. injection Hlim as <-.
    by exists ip.
Qed.

Lemma resolve_since_ok_iff since (w : world C) :
  (∃ ts, fst (resolve_since h since w) = inr ts) ↔ since_resolvable h since.
Proof.
  unfold since_resolvable. rewrite resolve_since_eq.
  destruct since as [raw|]; simpl; [|split; [done|by eauto]].
  destruct (JS.isNaN_string raw) eqn:Hnan; simpl.
  - destruct (Date_parse_cases h raw) as [Hd|[t Hd]]; rewrite Hd; simpl.
    + split; [by intros [? [=]]|]. intros Hres.
      destruct (Hres raw eq_refl Hnan) as [t Ht]. congruence.
    + split; [|by eauto]. intros _ raw' [= <-] _. by exists t.
  - split; [|by eauto]. intros _ raw' [= <-] Hn. congruence.
Qed.

(** X2: a request is admitted exactly when it passes the three checks: the
    client check, every requested name resolves on the catalog object, and
    the since parameter resolves. *)
Theorem admission_iff req (w : world C) :
  (∃ a, fst (stream_route h app req w) = inr a)
  ↔ client_admissible h app req w
    ∧ invalid_of app req = []
    ∧ since_resolvable h (query_since req).
Proof.
  rewrite <- (check_client_ok_iff req w), <- (resolve_since_ok_iff _ w).
  rewrite stream_route_eq. split.
  - destruct (fst (check_client h app req w)) as [e|ccm]; [by intros [? [=]]|].
    destruct (invalid_of app req) as [|x l] eqn:Hinv; [|by intros [? [=]]].
    apply invalid_nil_iff in Hinv.
    rewrite (flatMap_topics_valid _ _ Hinv).
    destruct (fst (resolve_since h (query_since req) w)) as [e|ts];
      [by intros [? [=]]|].
    by eauto.
  - intros ([ccm ->] & Hinv & [ts ->]). rewrite Hinv.
    apply invalid_nil_iff in Hinv.
    rewrite (flatMap_topics_valid _ _ Hinv). by eexists.
Qed.

(** X3: the route throws the 429 error exactly when a limit is configured,
    the request names its client, and that client's counter reads at least
    the limit. *)
Theorem too_many_requests_iff req (w : world C) :
  fst (stream_route h app req w) = inl (Http too_many_requests)
  ↔ ∃ limit ip, limit_is app limit
      ∧ headers req !! "x-client-ip" = Some ip ∧ ip ≠ ""
      ∧ limit ≤ reading w (client_key h app ip).
Proof.
  split.
  - intros Hrun.
    destruct (check_client_decide req w)
      as [[Hno Hc]|[[_ Hc]|[[Hex _]|(l & ip & _ & _ & _ & _ & Hc)]]]; [| |done|].
    + apply (f_equal fst) in Hc.
      by destruct (past_client_check _ _ _ _ Hc Hrun).
    + rewrite stream_route_eq, Hc in Hrun. by simpl in Hrun.
    + apply (f_equal fst) in Hc.
      by destruct (past_client_check _ _ _ _ Hc Hrun).
  - intros (limit & ip & Hl & Hip & Hnz & Hge).
    rewrite stream_route_eq, (check_client_present h app req w limit ip) by done.
    by destruct (Z.leb_spec limit (reading w (client_key h app ip))); [|lia].
Qed.

(** X4: the route throws the missing-header error exactly when a limit is
    configured and the X-Client-IP header is absent or empty. *)
Theorem missing_client_ip_iff req (w : world C) :
  fst (stream_route h app req w) = inl (Http missing_client_ip)
  ↔ ∃ limit, limit_is app limit
      ∧ JS.truthy (of_option (headers req !! "x-client-ip")) = false.
Proof.
  split.
  - intros Hrun.
    destruct (check_client_decide req w)
      as [[Hno Hc]|[[Hex _]|[[_ Hc]|(l & ip & _ & _ & _ & _ & Hc)]]]; [|done| |].
    + apply (f_equal fst) in Hc.
      by destruct (past_client_check _ _ _ _ Hc Hrun).
    + rewrite stream_route_eq, Hc in Hrun. by simpl in Hrun.
    + apply (f_equal fst) in Hc.
      by destruct (past_client_check _ _ _ _ Hc Hrun).
  - intros (limit & Hl & Hh).
    by rewrite stream_route_eq, (check_client_missing h app req w limit).
Qed.

Lemma client_key_inj a b : client_key h app a = client_key h app b → a = b.
Proof.
  unfold client_key. intros Heq.
  apply append_inj_l in Heq. by apply append_inj_l in Heq.
Qed.

(** X5: counter keys do not collide: two stream names share a key only if
    they are the same name, two clients likewise, and a stream's key is
    never a client's key. *)
Theorem counter_keys_distinct :
  (∀ a b, stream_key h app a = stream_key h app b ↔ a = b)
  ∧ (∀ a b, client_key h app a = client_key h app b ↔ a = b)
  ∧ (∀ s ip, String.eqb (stream_key h app s) (client_key h app ip) = false).
Proof.
  split; [|split].
  - intros a b. split; [apply stream_key_inj|by intros ->].
  - intros a b. split; [apply client_key_inj|by intros ->].
  - intros s ip. apply String.eqb_neq, stream_key_not_client.
Qed.

End Outcomes.

Section Handover.

Context {C : Type} `{IntervalCounter C}.
Variable h : host.
Variable app : app_conf.

Lemma split_comma_length s : (1 ≤ length (JS.split_comma s))%nat.
Proof.
  induction s as [|c s IH]; simpl; [lia|].
  destruct (JS.code c =? 44); simpl; [lia|].
  destruct (JS.split_comma s); simpl; lia.
Qed.

(** X6: the increments of an admitted request are the stream keys of the
    requested names, in request order, followed by the client's key when a
    limit is configured; without a limit the X-Client-IP header is not
    counted at all.  There is always at least one stream key. *)
Theorem admission_calls req (w w' : world C) a :
  stream_route h app req w = (inr a, w') →
  (1 ≤ length (requested req))%nat
  ∧ (((∀ limit, ¬ limit_is app limit)
      ∧ calls w' = (calls w ++ map Increment (map (stream_key h app) (requested req)))%list)
     ∨ (∃ limit ip, limit_is app limit
          ∧ headers req !! "x-client-ip" = Some ip
          ∧ calls w' = (calls w ++ map Increment
                                     (map (stream_key h app) (requested req)
                                      ++ [client_key h app ip]))%list)).
Proof.
  intros Hrun. split; [apply split_comma_length|].
  destruct (admission_inv _ _ _ _ _ _ Hrun) as (ccm & ts & Hc & _ & _ & -> & _).
  destruct (check_client_decide h app req w)
    as [[Hno Hk]|[[_ Hk]|[[_ Hk]|(l & ip & Hl & Hip & Hnz & _ & Hk)]]];
    rewrite Hk in Hc; simpl in Hc; try done; injection Hc as <-.
  - left. split; [done|]. unfold session_keys; simpl. by rewrite app_nil_r.
  - right. exists l, ip. split; [done|]. split; [done|].
    unfold session_keys. simpl.
    pose proof (client_key_truthy h app ip) as Ht. simpl in Ht. by rewrite Ht.
Qed.

Lemma check_client_reads req (w1 w2 : world C) :
  (∀ ip, headers req !! "x-client-ip" = Some ip →
         reading w1 (client_key h app ip) = reading w2 (client_key h app ip)) →
  fst (check_client h app req w1) = fst (check_client h app req w2).
Proof.
  intros Hsame.
  destruct (check_client_decide h app req w1)
    as [[Hno ->]|[[(l & Hl & Hh) ->]|[[(l & ip & Hl & Hip & Hnz & Hge) ->]
        |(l & ip & Hl & Hip & Hnz & Hlt & ->)]]]; simpl.
  - by rewrite check_client_unlimited.
  - by rewrite (check_client_missing h app req w2 l).
  - rewrite (check_client_present h app req w2 l ip) by done.
    rewrite <- (Hsame ip Hip).
    by destruct (Z.leb_spec l (reading w1 (client_key h app ip))); [|lia].
  - rewrite (check_client_present h app req w2 l ip) by done.
    rewrite <- (Hsame ip Hip).
    by destruct (Z.leb_spec l (reading w1 (client_key h app ip))); [lia|].
Qed.

(** X7: the counters bear on the outcome only through the reading of the
    requesting client's key: in two worlds that agree on it, the route
    throws the same error or hands the same arguments to the engine. *)
Theorem outcome_reads_only_the_client req (w1 w2 : world C) :
  (∀ ip, headers req !! "x-client-ip" = Some ip →
         reading w1 (client_key h app ip) = reading w2 (client_key h app ip)) →
  engine_call (stream_route h app req w1) = engine_call (stream_route h app req w2).
Proof.
  intros Hsame. unfold engine_call.
  rewrite !stream_route_eq, (check_client_reads req w1 w2 Hsame), !resolve_since_eq.
  destruct (fst (check_client h app req w2)); [done|].
  destruct (invalid_of app req); [|done].
  destruct (flatMap_topics app (requested req)); [done|].
  destruct (query_since req) as [raw|]; simpl; [|done].
  destruct (JS.isNaN_string raw); simpl; [|done].
  by destruct (JS.Date_parse (date_parse_host h) raw).
Qed.

(** X8: the resume hint of an admitted request is [undefined] or a value
    [isNaN] takes for a number; [NaN] never reaches the engine. *)
Theorem hint_is_a_number_or_nothing req (w w' : world C) a :
  stream_route h app req w = (inr a, w') →
  atTimestamp (kafkaSse a) = JS.Undefined
  ∨ JS.isNaN (atTimestamp (kafkaSse a)) = false.
Proof.
  intros Hrun.
  destruct (admission_inv _ _ _ _ _ _ Hrun)
    as (ccm & ts & _ & _ & Hts & _ & _ & _ & _ & -> & _).
  rewrite resolve_since_eq in Hts.
  destruct (query_since req) as [raw|]; simpl in Hts; [|left; congruence].
  right.
  destruct (JS.isNaN_string raw) eqn:Hnan; simpl in Hts.
  - destruct (JS.Date_parse (date_parse_host h) raw); simpl in Hts; try done.
    by injection Hts as <-.
  - by injection Hts as <-.
Qed.

(** X9: the only header handed on to the engine is the request's
    content-type, with the value the request gave; no other request header
    is passed, and none at all when the request has no content-type. *)
Theorem only_content_type_is_passed_on req (w w' : world C) a :
  stream_route h app req w = (inr a, w') →
  ∀ name, responseHeaders (kafkaSse a) !! name
          = if decide (name = "content-type") then headers req !! "content-type"
            else None.
Proof.
  rewrite stream_route_eq.
  destruct (fst (check_client h app req w)); [done|].
  destruct (invalid_of app req); [|done].
  destruct (flatMap_topics app (requested req)); [done|].
  destruct (fst (resolve_since h (query_since req) w)); [done|].
  intros [= <- _] name. simpl. unfold JS.has_own.
  destruct (headers req !! "content-type") as [ctype|] eqn:Hv; simpl.
  - case_decide as Hn; [subst; by rewrite lookup_singleton_eq|].
    by rewrite lookup_singleton_ne.
  - rewrite lookup_empty. by case_decide.
Qed.

Lemma undefined_contributions (l : list string) :
  Forall (fun s => JS.has_property s (conf_streams app) = true) l →
  occurrences JS.Undefined (flat_map (contribution app) l)
  = length (filter (fun s => conf_streams app !! s = None) l)
  ∧ Forall (fun s => JS.inherited s = true)
      (filter (fun s => conf_streams app !! s = None) l).
Proof.
  induction 1 as [|s l Hs _ [IHn IHf]]; [done|].
  simpl. rewrite occurrences_app, filter_cons, IHn.
  unfold contribution at 1. unfold JS.has_property in Hs.
  destruct (conf_streams app !! s) as [sc|] eqn:Hsc.
  - rewrite decide_False by done. split; [|done].
    rewrite occurrences_absent; [done|].
    intros (t & [=] & _)%in_map_iff.
  - rewrite decide_True by done. split; [done|]. by constructor.
Qed.

(** X10: in the topic list of an admitted request there is one [undefined]
    for each requested name that the catalog does not have, and such a name
    is always one that every object inherits; when all requested names are
    in the catalog the list holds topic names only. *)
Theorem undefined_topics req (w w' : world C) a :
  stream_route h app req w = (inr a, w') →
  occurrences JS.Undefined (arg_topics (kafkaSse a)) = length (missing_of app req)
  ∧ Forall (fun s => JS.inherited s = true) (missing_of app req).
Proof.
  intros Hrun.
  destruct (admission_inv _ _ _ _ _ _ Hrun)
    as (ccm & ts & _ & Hvalid & _ & _ & _ & -> & _).
  by apply undefined_contributions.
Qed.

Lemma comma_is a : JS.code a = 44 → a = ","%char.
Proof.
  unfold JS.code. intros Hc.
  rewrite <- (ascii_N_embedding a).
  by replace (N_of_ascii a) with 44%N by lia.
Qed.

(** Joining what was split gives the string back. *)
Lemma join_split s : JS.join_comma (JS.split_comma s) = s.
Proof.
  unfold JS.join_comma.
  induction s as [|c s IH]; [done|]. simpl.
  pose proof (split_comma_length s) as Hlen.
  destruct (Z.eqb_spec (JS.code c) 44) as [Hc|Hc].
  - apply comma_is in Hc as ->.
    destruct (JS.split_comma s) as [|x l]; [simpl in Hlen; lia|].
    change (String "," (String.concat "," (x :: l)) = String "," s).
    by rewrite IH.
  - destruct (JS.split_comma s) as [|x l]; [simpl in Hlen; lia|].
    rewrite <- IH. by destruct l.
Qed.

Lemma filter_all {A} (P : A → Prop) `{∀ x, Decision (P x)} (l : list A) :
  Forall P l → filter P l = l.
Proof.
  induction 1 as [|x l Hx _ IH]; [done|].
  by rewrite filter_cons, decide_True, IH.
Qed.

(** X11: when the client check is passed and none of the requested names
    resolves, the detail of the stream-not-found error is the path
    parameter as it was sent, after the fixed prefix. *)
Theorem detail_echoes_path req (w : world C) :
  client_admissible h app req w →
  Forall (fun s => JS.has_property s (conf_streams app) = false) (requested req) →
  ∃ err, stream_route h app req w = (inl (Http err), w)
         ∧ type err = "not_found"
         ∧ detail err = "Invalid streams: " +:+ params_streams req.
Proof.
  intros [ccm Hc]%check_client_ok_iff Hnone.
  assert (invalid_of app req = requested req) as Hinv.
  { unfold invalid_of. apply filter_all.
    eapply Forall_impl; [exact Hnone|]. intros s ->. done. }
  exists (stream_not_found (invalid_of app req)).
  split; [|split; [done|]].
  - rewrite stream_route_eq, Hc.
    destruct (invalid_of app req) eqn:Hi; [|done].
    pose proof (split_comma_length (params_streams req)) as Hlen.
    unfold requested in Hinv. rewrite <- Hinv in Hlen. simpl in Hlen. lia.
  - simpl. rewrite Hinv. unfold requested. by rewrite join_split.
Qed.

End Handover.

Section Gauge.

Context {C : Type} `{IntervalCounter C}.
Variable h : host.
Variable app : app_conf.

Lemma occurrences_cons `{EqDecision A} (x y : A) l :
  occurrences x (y :: l)
  = ((if decide (y = x) then 1 else 0) + occurrences x l)%nat.
Proof.
  unfold occurrences, decide, decide_rel. simpl.
  by destruct (EqDecision0 y x).
Qed.

Lemma fold_increment_count (keys : list string) (c : C) key :
  gauge_laws →
  count_of (fold_left ic_increment keys c) key
  = count_of c key + Z.of_nat (occurrences key keys).
Proof.
  intros (Hsame & Hother & _). revert c.
  induction keys as [|x keys IH]; intros c.
  - unfold occurrences; simpl. lia.
  - cbn [fold_left]. rewrite IH, occurrences_cons.
    destruct (decide (x = key)) as [->|Hne].
    + rewrite Hsame. lia.
    + rewrite Hother by done. lia.
Qed.

Lemma fold_decrement_count (keys : list string) (c : C) :
  gauge_laws →
  (∀ key, Z.of_nat (occurrences key keys) ≤ count_of c key) →
  ∀ key, count_of (fold_left ic_decrement keys c) key
         = count_of c key - Z.of_nat (occurrences key keys).
Proof.
  intros Hlaws. pose proof Hlaws as (_ & _ & Hsame & Hother). revert c.
  induction keys as [|x keys IH]; intros c Hroom key.
  - unfold occurrences; simpl. lia.
  - cbn [fold_left].
    assert (1 ≤ count_of c x) as Hx.
    { specialize (Hroom x). rewrite occurrences_cons, decide_True in Hroom by done. lia. }
    rewrite IH.
    + rewrite occurrences_cons.
      destruct (decide (x = key)) as [->|Hne].
      * rewrite Hsame by done. lia.
      * rewrite Hother by done. lia.
    + intros k. specialize (Hroom k). rewrite occurrences_cons in Hroom.
      destruct (decide (x = k)) as [->|Hne].
      * rewrite Hsame by done. lia.
      * rewrite Hother by done. lia.
Qed.

Lemma client_key_occurrences req (w : world C) ccm ip :
  fst (check_client h app req w) = inr ccm →
  occurrences (client_key h app ip) (session_keys h app (requested req) ccm)
  = if decide (ccm = Some (client_key h app ip)) then 1%nat else 0%nat.
Proof.
  intros Hc. unfold session_keys.
  rewrite occurrences_app.
  rewrite (occurrences_absent (client_key h app ip)
             (map (stream_key h app) (requested req))).
  2: { intros (s & Heq & _)%in_map_iff. by apply (stream_key_not_client h app s ip). }
  destruct (admitted_client _ _ _ _ _ Hc) as [->|[ip' ->]].
  - case_decide; [done|]. unfold occurrences; simpl. lia.
  - pose proof (client_key_truthy h app ip') as Ht.
    cbn [of_option template]. rewrite Ht, occurrences_cons.
    change (occurrences (client_key h app ip) []) with 0%nat.
    destruct (decide (client_key h app ip' = client_key h app ip)) as [Heq|Hne];
      case_decide; try done; congruence.
Qed.

(** X12: on a counter that keeps the gauge laws, admitting a request adds
    to the reading of each stream key the number of times its name was
    requested, adds one to the reading of the requesting client's key when
    a limit is configured, and leaves every other client's reading alone. *)
Theorem admission_raises_readings req (w w' : world C) a :
  gauge_laws →
  stream_route h app req w = (inr a, w') →
  (∀ name, reading w' (stream_key h app name)
           = reading w (stream_key h app name)
             + Z.of_nat (occurrences name (requested req)))
  ∧ (∀ limit ip, limit_is app limit → headers req !! "x-client-ip" = Some ip →
       reading w' (client_key h app ip) = reading w (client_key h app ip) + 1)
  ∧ (∀ ip, headers req !! "x-client-ip" ≠ Some ip →
       reading w' (client_key h app ip) = reading w (client_key h app ip)).
Proof.
  intros Hlaws Hrun.
  destruct (admission_inv _ _ _ _ _ _ Hrun) as (ccm & ts & Hc & _ & _ & -> & _).
  assert (∀ key, reading (increment_all (session_keys h app (requested req) ccm) w) key
                 = reading w key
                   + Z.of_nat (occurrences key (session_keys h app (requested req) ccm)))
    as Hread by (intros key; by apply fold_increment_count).
  split; [|split].
  - intros name. by rewrite Hread, (session_keys_occurrences h app req w).
  - intros limit ip Hl Hip.
    rewrite Hread, (client_key_occurrences req w) by done.
    destruct (check_client_decide h app req w)
      as [[Hno Hk]|[[_ Hk]|[[_ Hk]|(l & ip' & _ & Hip' & _ & _ & Hk)]]];
      rewrite Hk in Hc; simpl in Hc; try done; injection Hc as <-.
    + by destruct (Hno limit).
    + rewrite Hip in Hip'. injection Hip' as <-. by rewrite decide_True.
  - intros ip Hip.
    rewrite Hread, (client_key_occurrences req w) by done.
    destruct (check_client_decide h app req w)
      as [[Hno Hk]|[[_ Hk]|[[_ Hk]|(l & ip' & _ & Hip' & _ & _ & Hk)]]];
      rewrite Hk in Hc; simpl in Hc; try done; injection Hc as <-.
    + rewrite decide_False by done. lia.
    + rewrite decide_False; [lia|].
      intros [= Heq]. apply client_key_inj in Heq. congruence.
Qed.

(** X13: on a counter that keeps the gauge laws and with a limit
    configured, a client whose reading is within the limit stays within it
    through any request, admitted or not. *)
Theorem limit_is_kept req (w : world C) limit ip :
  gauge_laws →
  limit_is app limit →
  reading w (client_key h app ip) ≤ limit →
  reading (snd (stream_route h app req w)) (client_key h app ip) ≤ limit.
Proof.
  intros Hlaws Hl Hle.
  destruct (stream_route h app req w) as [[e|a] w'] eqn:Hrun; simpl.
  - by rewrite (rejection_world _ _ _ _ _ _ Hrun).
  - destruct (admission_inv _ _ _ _ _ _ Hrun) as (ccm & ts & Hc & _ & _ & -> & _).
    assert (reading (increment_all (session_keys h app (requested req) ccm) w)
              (client_key h app ip)
            = reading w (client_key h app ip)
              + Z.of_nat (occurrences (client_key h app ip)
                            (session_keys h app (requested req) ccm))) as ->
      by (by apply fold_increment_count).
    rewrite (client_key_occurrences req w) by done.
    destruct (check_client_decide h app req w)
      as [[Hno Hk]|[[_ Hk]|[[_ Hk]|(l & ip' & [Hl' _] & _ & _ & Hlt & Hk)]]];
      rewrite Hk in Hc; simpl in Hc; try done; injection Hc as <-.
    + by destruct (Hno limit).
    + destruct Hl as [Hl _]. rewrite Hl in Hl'. injection Hl' as <-.
      destruct (decide (Some (client_key h app ip') = Some (client_key h app ip)))
        as [[= Heq]|Hne]; [|lia].
      apply client_key_inj in Heq as ->. lia.
Qed.

(** X14: on a counter that keeps the gauge laws, the close listener takes
    off every reading exactly what admission added to it, provided the
    readings have not dropped below that in the meantime; fired right after
    admission, with no reading negative before, it leaves every key
    reading what it read before the request. *)
Theorem release_undoes_admission req (w w' : world C) a :
  gauge_laws →
  stream_route h app req w = (inr a, w') →
  (∀ w2, (∀ key, reading w' key - reading w key ≤ reading w2 key) →
         ∀ key, reading (snd (on_close a w2)) key
                = reading w2 key - (reading w' key - reading w key))
  ∧ ((∀ key, 0 ≤ reading w key) →
     ∀ key, reading (snd (on_close a w')) key = reading w key).
Proof.
  intros Hlaws Hrun.
  destruct (admission_inv _ _ _ _ _ _ Hrun)
    as (ccm & ts & _ & _ & _ & -> & Hclose & _).
  set (keys := session_keys h app (requested req) ccm).
  assert (∀ key, reading (increment_all keys w) key
                 = reading w key + Z.of_nat (occurrences key keys)) as Hup
    by (intros key; by apply fold_increment_count).
  assert (∀ w2, (∀ key, Z.of_nat (occurrences key keys) ≤ reading w2 key) →
            ∀ key, reading (snd (on_close a w2)) key
                   = reading w2 key - Z.of_nat (occurrences key keys)) as Hdown.
  { intros w2 Hroom key. rewrite Hclose, close_listener_run. simpl.
    by apply fold_decrement_count. }
  split.
  - intros w2 Hroom key. rewrite Hup.
    rewrite Hdown; [lia|]. intros k. specialize (Hroom k). rewrite Hup in Hroom. lia.
  - intros Hpos key.
    rewrite Hdown, Hup; [lia|]. intros k. rewrite Hup. specialize (Hpos k). lia.
Qed.

End Gauge.

(** The map-backed counter keeps the gauge laws. *)
Lemma map_counter_gauge : gauge_laws (C := gmap string Z).
Proof.
  unfold gauge_laws, count_of; simpl. unfold map_get, map_increment, map_decrement; simpl.
  repeat split.
  - intros c k. by rewrite lookup_insert_eq.
  - intros c k k' Hne. by rewrite lookup_insert_ne.
  - intros c k Hge. rewrite lookup_insert_eq. simpl. lia.
  - intros c k k' Hne. by rewrite lookup_insert_ne.
Qed.

(** ** The further properties at concrete requests *)

Lemma admission_calls_witness :
  ∃ a w',
    stream_route strict_host limited_conf (get "edits,articles" None client) idle = (inr a, w')
    ∧ (1 ≤ length (requested (get "edits,articles" None client)))%nat
    ∧ (((∀ limit, ¬ limit_is limited_conf limit)
        ∧ calls w' = (calls idle
                      ++ map Increment (map (stream_key strict_host limited_conf)
                                          (requested (get "edits,articles" None client))))%list)
       ∨ (∃ limit ip, limit_is limited_conf limit
            ∧ headers (get "edits,articles" None client) !! "x-client-ip" = Some ip
            ∧ calls w' = (calls idle
                          ++ map Increment
                               (map (stream_key strict_host limited_conf)
                                  (requested (get "edits,articles" None client))
                                ++ [client_key strict_host limited_conf ip]))%list)).
Proof.
  destruct (stream_route_admits strict_host limited_conf
              (get "edits,articles" None client) idle (Some client_ip_key) JS.Undefined)
    as [a Hrun]; [vm_compute; reflexivity..|].
  eexists a, _. split; [exact Hrun|].
  exact (admission_calls _ _ _ _ _ _ Hrun).
Defined.

Lemma outcome_reads_only_the_client_witness :
  engine_call (stream_route strict_host limited_conf (get "articles" None client) idle)
  = engine_call (stream_route strict_host limited_conf (get "articles" None client)
                   elsewhere_busy).
Proof.
  apply (outcome_reads_only_the_client strict_host limited_conf).
  intros ip Hip.
  assert (ip = "10.0.0.1") as -> by (vm_compute in Hip; congruence).
  vm_compute. reflexivity.
Defined.

Lemma hint_is_a_number_or_nothing_witness :
  ∃ a w',
    stream_route strict_host open_conf (get "articles" (Some "1600000000000") []) idle
    = (inr a, w')
    ∧ (atTimestamp (kafkaSse a) = JS.Undefined
       ∨ JS.isNaN (atTimestamp (kafkaSse a)) = false).
Proof.
  destruct (stream_route_admits strict_host open_conf
              (get "articles" (Some "1600000000000") []) idle None
              (JS.Str "1600000000000"))
    as [a Hrun]; [vm_compute; reflexivity..|].
  eexists a, _. split; [exact Hrun|].
  exact (hint_is_a_number_or_nothing _ _ _ _ _ _ Hrun).
Defined.

Lemma only_content_type_is_passed_on_witness :
  ∃ a w',
    stream_route strict_host limited_conf
      (get "articles" None (("content-type", "text/plain") :: client)) idle
    = (inr a, w')
    ∧ ∀ name, responseHeaders (kafkaSse a) !! name
              = if decide (name = "content-type")
                then headers (get "articles" None (("content-type", "text/plain") :: client))
                       !! "content-type"
                else None.
Proof.
  destruct (stream_route_admits strict_host limited_conf
              (get "articles" None (("content-type", "text/plain") :: client)) idle
              (Some client_ip_key) JS.Undefined)
    as [a Hrun]; [vm_compute; reflexivity..|].
  eexists a, _. split; [exact Hrun|].
  exact (only_content_type_is_passed_on _ _ _ _ _ _ Hrun).
Defined.

Lemma undefined_topics_witness :
  ∃ a w',
    stream_route strict_host open_conf (get "valueOf,articles" None []) idle = (inr a, w')
    ∧ occurrences JS.Undefined (arg_topics (kafkaSse a))
      = length (missing_of open_conf (get "valueOf,articles" None []))
    ∧ Forall (fun s => JS.inherited s = true)
        (missing_of open_conf (get "valueOf,articles" None [])).
Proof.
  destruct (stream_route_admits strict_host open_conf
              (get "valueOf,articles" None []) idle None JS.Undefined)
    as [a Hrun]; [vm_compute; reflexivity..|].
  eexists a, _. split; [exact Hrun|].
  exact (undefined_topics _ _ _ _ _ _ Hrun).
Defined.

Lemma detail_echoes_path_witness :
  ∃ err, stream_route strict_host open_conf (get "nosuch,,other" None []) idle
         = (inl (Http err), idle)
         ∧ type err = "not_found"
         ∧ detail err = "Invalid streams: " +:+ params_streams (get "nosuch,,other" None []).
Proof.
  apply (detail_echoes_path strict_host open_conf).
  - intros limit [Hl _]. discriminate Hl.
  - assert (requested (get "nosuch,,other" None []) = ["nosuch"; ""; "other"]) as ->
      by (vm_compute; reflexivity).
    repeat (constructor; [vm_compute; reflexivity|]). constructor.
Defined.

Lemma admission_raises_readings_witness :
  ∃ a w',
    stream_route strict_host limited_conf (get "edits,articles,edits" None client) idle
    = (inr a, w')
    ∧ (∀ name, reading w' (stream_key strict_host limited_conf name)
               = reading idle (stream_key strict_host limited_conf name)
                 + Z.of_nat (occurrences name
                               (requested (get "edits,articles,edits" None client))))
    ∧ (∀ limit ip, limit_is limited_conf limit →
         headers (get "edits,articles,edits" None client) !! "x-client-ip" = Some ip →
         reading w' (client_key strict_host limited_conf ip)
         = reading idle (client_key strict_host limited_conf ip) + 1)
    ∧ (∀ ip, headers (get "edits,articles,edits" None client) !! "x-client-ip" ≠ Some ip →
         reading w' (client_key strict_host limited_conf ip)
         = reading idle (client_key strict_host limited_conf ip)).
Proof.
  destruct (stream_route_admits strict_host limited_conf
              (get "edits,articles,edits" None client) idle (Some client_ip_key)
              JS.Undefined)
    as [a Hrun]; [vm_compute; reflexivity..|].
  eexists a, _. split; [exact Hrun|].
  exact (admission_raises_readings _ _ _ _ _ _ map_counter_gauge Hrun).
Defined.

Lemma limit_is_kept_witness :
  reading (snd (stream_route strict_host limited_conf (get "articles" None client) busy))
    (client_key strict_host limited_conf "10.0.0.1") ≤ 2.
Proof.
  apply (limit_is_kept strict_host limited_conf _ busy 2 "10.0.0.1").
  - exact map_counter_gauge.
  - split; [reflexivity|lia].
  - assert (reading busy (client_key strict_host limited_conf "10.0.0.1") = 2) as ->
      by (vm_compute; reflexivity).
    lia.
Defined.

Lemma release_undoes_admission_witness :
  ∃ a w',
    stream_route strict_host limited_conf (get "edits,articles,edits" None client) idle
    = (inr a, w')
    ∧ ∀ key, reading (snd (on_close a w')) key = reading idle key.
Proof.
  destruct (stream_route_admits strict_host limited_conf
              (get "edits,articles,edits" None client) idle (Some client_ip_key)
              JS.Undefined)
    as [a Hrun]; [vm_compute; reflexivity..|].
  eexists a, _. split; [exact Hrun|].
  apply (release_undoes_admission _ _ _ _ _ _ map_counter_gauge Hrun).
  intros key. unfold reading, idle; simpl. unfold map_get.
  rewrite lookup_empty. simpl. lia.
Defined.
